(** * hcache: the page-cache census pipeline of [main.go]

    A shallow embedding of [uniqueSlice], [getStatsFromFiles], [formatStats],
    [top], [main] and [getPidLds], and the properties of the census pipeline
    checked against them. *)

From Stdlib Require Import ZArith Lia Ascii String.
From stdpp Require Import base option list gmap strings pretty sorting.

Local Open Scope string_scope.
Local Open Scope Z_scope.
Local Open Scope list_scope.

(** ** Strings: [strings.HasPrefix], [strings.Contains], [path.Base] *)

Module Strings.

(** [strings.HasPrefix(s, prefix)]. *)
Fixpoint HasPrefix (s prefix : string) {struct prefix} : bool :=
  match prefix with
  | EmptyString => true
  | String c prefix' =>
      match s with
      | EmptyString => false
      | String d s' => if Ascii.eqb c d then HasPrefix s' prefix' else false
      end
  end.

(** [strings.Contains(s, substr)]: [substr] starts at some position of [s]. *)
Fixpoint Contains (s substr : string) : bool :=
  HasPrefix s substr ||
  match s with
  | EmptyString => false
  | String _ s' => Contains s' substr
  end.

Definition slash : Ascii.ascii := "/"%char.

(** The loop of [path.Base] that strips trailing slashes, on the reversed
    characters. *)
Fixpoint strip_slashes (rev_chars : list Ascii.ascii) : list Ascii.ascii :=
  match rev_chars with
  | c :: r => if Ascii.eqb c slash then strip_slashes r else rev_chars
  | [] => []
  end.

(** On the reversed characters: everything after the last slash. *)
Fixpoint last_element (rev_chars : list Ascii.ascii) : list Ascii.ascii :=
  match rev_chars with
  | c :: r => if Ascii.eqb c slash then [] else c :: last_element r
  | [] => []
  end.

(** [path.Base(p)] of the Go standard library. *)
Definition Base (p : string) : string :=
  if String.eqb p "" then "."
  else
    let stripped := strip_slashes (reverse (list_ascii_of_string p)) in
    let elem := string_of_list_ascii (reverse (last_element stripped)) in
    if String.eqb elem "" then "/" else elem.

End Strings.

Import Strings.

(** ** Data *)

(** [pcstat.PcStatus], with the fields the pipeline and the ranking read.
    [Percent] is derived from [Cached] and [Pages]; the ranking compares the
    exact fraction. *)
Record PcStatus := mkPcStatus {
  Name : string;
  Size : Z;
  Pages : Z;
  Cached : Z;
  Uncached : Z
}.

Global Instance PcStatus_eq_dec : EqDecision PcStatus.
Proof. solve_decision. Defined.

(** The zero value of the struct, what an unwritten slot of a slice holds. *)
Definition PcStatus_zero : PcStatus := mkPcStatus "" 0 0 0 0.

(** [utils.Process]: the two methods [top] calls. *)
Record Process := mkProcess { Pid : Z; RSS : Z }.

(** [os.DirEntry]: the two methods [getPidLds] calls. *)
Record DirEntry := mkDirEntry { EntryName : string; IsDir : bool }.

(** [fs.FileInfo]: [Mode()] as a 32-bit word. *)
Record FileInfo := mkFileInfo { Mode : Z }.

(** [os.ModeSymlink = 1 << 27]. *)
Definition ModeSymlink : Z := Z.shiftl 1 27.

(** ** Go slices with a capacity

    A slice is a window of [slen] elements on a backing array; the capacity
    is the length of the backing array. *)

Record GoSlice (A : Type) := mkSlice { backing : list A; slen : nat }.
Arguments mkSlice {A} _ _.
Arguments backing {A} _.
Arguments slen {A} _.

Section Slices.
Context {A : Type} (zero : A).

Definition cap (s : GoSlice A) : nat := length (backing s).

(** The elements a [range] or a formatter sees. *)
Definition elems (s : GoSlice A) : list A := take (slen s) (backing s).

(** [make([]T, 0, n)]. *)
Definition make0 (n : nat) : GoSlice A := mkSlice (replicate n zero) 0.

(** [append(s, x)]. Within the capacity the element is written in place;
    otherwise the runtime moves the elements to a larger array, with
    [extra] more slots than needed. *)
Definition append (extra : nat) (s : GoSlice A) (x : A) : GoSlice A :=
  if decide (slen s < cap s)%nat
  then mkSlice (<[slen s := x]> (backing s)) (S (slen s))
  else mkSlice (elems s ++ x :: replicate extra zero) (S (slen s)).

(** [s[:n]]: the bound is checked against the capacity, not the length;
    out of range is a run-time panic ([None]). *)
Definition reslice (s : GoSlice A) (n : Z) : option (GoSlice A) :=
  if decide (0 ≤ n ≤ Z.of_nat (cap s))
  then Some (mkSlice (backing s) (Z.to_nat n))
  else None.

(** A function on the elements, applied in place (what [sort.Sort] does). *)
Definition in_place (f : list A → list A) (s : GoSlice A) : GoSlice A :=
  mkSlice (f (elems s) ++ drop (slen s) (backing s)) (slen s).
End Slices.

(** ** Ranking: [sort.Sort(PcStatusList(stats))] *)

Section Sorting.
Context {A : Type} (less : A → A → bool).

(** The inner loop of [insertionSort]: the new element moves left while it
    is [less] than its left neighbour. [rprefix] is the sorted prefix, last
    element first. *)
Fixpoint move_left (x : A) (rprefix : list A) : list A :=
  match rprefix with
  | [] => [x]
  | y :: r => if less x y then y :: move_left x r else x :: y :: r
  end.

(** [insertionSort] of package [sort], on a whole range: every element in
    turn is moved left into the sorted prefix. *)
Definition insertionSort (l : list A) : list A :=
  reverse (foldl (λ rprefix x, move_left x rprefix) [] l).
End Sorting.

(** What [sort.IsSorted] checks, for every pair of positions: no element is
    [less] than one before it. *)
Definition ranked {A} (less : A → A → bool) (l : list A) : Prop :=
  StronglySorted (λ a b, less b a = false) l.

(** What [sort.Sort] promises of its result [l'] on [l]: it only swaps
    elements, so [l'] is a rearrangement of [l]; and [l'] is ranked when
    [less] is a strict weak order (it never holds both ways, and not holding
    is transitive). The sort is not stable. *)
Definition sorts {A} (less : A → A → bool) (l l' : list A) : Prop :=
  l' ≡ₚ l
  ∧ ((∀ a b, less a b = true → less b a = false) →
     (∀ a b c, less a b = false → less b c = false → less a c = false) →
     ranked less l').

(** The order [sort.Sort] ranks by. [PcStatusList] and its methods are
    declared outside [main.go]; the program below takes [Less] as a
    parameter, and the concrete runs use the order of this module. *)
Module Ranking.

(** The fraction of cached pages, as numerator and denominator; zero when
    the file has no pages. *)
Definition fraction (s : PcStatus) : Z * Z :=
  if Pages s =? 0 then (0, 1) else (Cached s, Pages s).

Definition fraction_compare (a b : PcStatus) : comparison :=
  let '(na, da) := fraction a in
  let '(nb, db) := fraction b in
  (na * db ?= nb * da).

(** Modelled from the spec: [PcStatusList.Less] is declared outside
    [main.go]. The ranking is by descending fraction of cached pages, ties
    broken by descending number of cached pages, then by name. *)
Definition Less (a b : PcStatus) : bool :=
  match fraction_compare a b with
  | Gt => true
  | Lt => false
  | Eq =>
      match Cached a ?= Cached b with
      | Gt => true
      | Lt => false
      | Eq => String.ltb (Name a) (Name b)
      end
  end.

End Ranking.

(** ** The Deduplicator: [uniqueSlice] *)

Record unique_state := mkUnique {
  u_slice : list string;
  u_found : gmap string bool;
  u_total : nat
}.

(** One iteration of the loop, at index [i]. The element is read from the
    array as it is at that moment; the array is written in place. *)
Definition uniqueSlice_step (st : unique_state) (i : nat) : unique_state :=
  match u_slice st !! i with
  | None => st
  | Some val =>
      match u_found st !! val with
      | Some _ => st
      | None =>
          mkUnique (<[u_total st := val]> (u_slice st))
                   (<[val := true]> (u_found st))
                   (S (u_total st))
      end
  end.

Definition uniqueSlice_loop (slice : list string) : unique_state :=
  foldl uniqueSlice_step (mkUnique slice ∅ 0) (seq 0 (length slice)).

(** [uniqueSlice(&slice)]: the value of [*slice] on return. *)
Definition uniqueSlice (slice : list string) : list string :=
  let st := uniqueSlice_loop slice in
  take (u_total st) (u_slice st).

(** The unique subsequence in first-occurrence order, as the specification
    words it: an element is kept where it occurs for the first time. *)
Fixpoint first_occurrences (l : list string) : list string :=
  match l with
  | [] => []
  | x :: r => x :: filter (λ y, y ≠ x) (first_occurrences r)
  end.

(** [x] occurs in [l] at position [p], and nowhere before. *)
Definition first_at (l : list string) (p : nat) (x : string) : Prop :=
  l !! p = Some x ∧ x ∉ take p l.


(** ** The environment of a run

    What the program reads from the operating system, the Go runtime and the
    packages outside [main.go]. A Go result [(v, err)] is a sum: [inl v] when
    [err] is nil, [inr msg] with [msg = err.Error()] otherwise. *)

(** The mount namespace the thread currently sees the file system through. *)
Definition Ns := nat.

Record World := mkWorld {
  Getpid : Z;
  Processes : Ns → list Process + string;
  SwitchMountNs : Ns → Z → Ns;
  ReadDir : Ns → string → list DirEntry + string;
  Lstat : Ns → string → FileInfo + string;
  EvalSymlinks : Ns → string → string + string;
  GetPcStatus : Ns → string → PcStatus + string;
  (** the order in which the runtime ranges over a map, from its random seed *)
  map_order : nat → gmap string bool → list string;
  (** the spare slots the runtime adds when [append] has to reallocate *)
  grow_extra : nat → nat;
  (** [sort.Sort] on a range of more than [maxInsertion] elements, where
      it runs a pattern-defeating quicksort: some result within the promise
      of the package *)
  long_sort : ∀ (less : PcStatus → PcStatus → bool) (l : list PcStatus),
      {l' : list PcStatus | sorts less l l'}
}.

(** The length up to which [sort.Sort] sorts a range by [insertionSort]. *)
Definition maxInsertion : nat := 12.

(** [sort.Sort(PcStatusList(stats))], on the elements of the slice: by
    insertion up to [maxInsertion] elements, by the quicksort of the package
    beyond. *)
Definition sort_Sort (w : World) (less : PcStatus → PcStatus → bool)
    (l : list PcStatus) : list PcStatus :=
  if decide (length l ≤ maxInsertion)%nat
  then insertionSort less l
  else proj1_sig (long_sort w less l).

(** A range over a map visits every key once. *)
Definition map_order_ok (w : World) : Prop :=
  ∀ seed (m : gmap string bool), map_order w seed m ≡ₚ (map_to_list m).*1.

(** The command line, as [flag.Parse] leaves it. *)
Record Flags := mkFlags {
  pidFlag : Z;
  topFlag : Z;
  terseFlag : bool;
  nohdrFlag : bool;
  jsonFlag : bool;
  unicodeFlag : bool;
  plainFlag : bool;
  ppsFlag : bool;
  histoFlag : bool;
  bnameFlag : bool;
  Args : list string
}.

(** The renderer [formatStats] hands the list to. *)
Inductive Rendering :=
| FormatJson (clearPps : bool)
| FormatTerse
| FormatHistogram
| FormatUnicode
| FormatPlain
| FormatText.

(** What a run does that can be observed. *)
Inductive Event :=
| ELog (format : string) (args : list string)
| EProcesses
| ESwitchMountNs (pid : Z)
| EFormat (r : Rendering) (stats : list PcStatus)
| EUsage.

Global Instance Rendering_eq_dec : EqDecision Rendering.
Proof. solve_decision. Defined.
Global Instance Event_eq_dec : EqDecision Event.
Proof. solve_decision. Defined.

Record St := mkSt { ns : Ns; seed : nat; trace : list Event }.

(** How a run ends before [main] returns. *)
Inductive Halt :=
| Exit (code : Z)
| Panic (msg : string).

Inductive Res (A : Type) :=
| Ret (a : A) (st : St)
| Stop (h : Halt) (st : St).
Arguments Ret {A} _ _.
Arguments Stop {A} _ _.

(** Computations: state passing, with an early end of the run. *)
Definition M (A : Type) : Type := St → Res A.

Global Instance M_ret : MRet M := λ A a st, Ret a st.
Global Instance M_bind : MBind M := λ A B f m st,
  match m st with
  | Ret a st' => f a st'
  | Stop h st' => Stop h st'
  end.

Definition emit (e : Event) : M unit :=
  λ st, Ret () (mkSt (ns st) (seed st) (trace st ++ [e])).

Definition halt {A} (h : Halt) : M A := λ st, Stop h st.

Definition gets {A} (g : St → A) : M A := λ st, Ret (g st) st.
Definition modify (g : St → St) : M unit := λ st, Ret () (g st).

(** [for _, x := range xs { acc = body(x, acc) }]; [continue] is a body
    that returns its accumulator. *)
Fixpoint for_range {A S} (xs : list A) (body : A → S → M S) (acc : S) : M S :=
  match xs with
  | [] => mret acc
  | x :: r => acc' ← body x acc; for_range r body acc'
  end.

(** [log.Printf], [log.Fatalf] (which exits with status 1), [os.Exit], and a
    run-time panic. *)
Definition Printf (format : string) (args : list string) : M unit :=
  emit (ELog format args).
Definition Fatalf {A} (format : string) (args : list string) : M A :=
  Printf format args;; halt (Exit 1).
Definition os_Exit {A} (code : Z) : M A := halt (Exit code).
Definition panic {A} (msg : string) : M A := halt (Panic msg).

Definition with_Name (s : PcStatus) (n : string) : PcStatus :=
  mkPcStatus n (Size s) (Pages s) (Cached s) (Uncached s).

(** The test [getPidLds] makes on a resolved target. *)
Definition kept (target : string) : bool :=
  HasPrefix target "/" && negb (HasPrefix target "/dev")
  && negb (HasPrefix target "/proc").

Section Program.
Context (w : World) (f : Flags).
(** [PcStatusList.Less], on the two elements compared. *)
Context (Less : PcStatus → PcStatus → bool).

Definition utils_Processes : M (list Process + string) :=
  emit EProcesses;; gets (λ st, Processes w (ns st)).
Definition pcstat_SwitchMountNs (pid : Z) : M unit :=
  emit (ESwitchMountNs pid);;
  modify (λ st, mkSt (SwitchMountNs w (ns st) pid) (seed st) (trace st)).
Definition os_ReadDir (dirname : string) : M (list DirEntry + string) :=
  gets (λ st, ReadDir w (ns st) dirname).
Definition os_Lstat (name : string) : M (FileInfo + string) :=
  gets (λ st, Lstat w (ns st) name).
Definition filepath_EvalSymlinks (name : string) : M (string + string) :=
  gets (λ st, EvalSymlinks w (ns st) name).
Definition pcstat_GetPcStatus (fname : string) : M (PcStatus + string) :=
  gets (λ st, GetPcStatus w (ns st) fname).
(** [for key := range m]: the keys, in the order the runtime picks. *)
Definition range_keys (m : gmap string bool) : M (list string) :=
  keys ← gets (λ st, map_order w (seed st) m);
  modify (λ st, mkSt (ns st) (S (seed st)) (trace st));;
  mret keys.

(** The body of the loop of [getStatsFromFiles]. *)
Definition getStats_body (fname : string) (stats : GoSlice PcStatus)
  : M (GoSlice PcStatus) :=
  r ← pcstat_GetPcStatus fname;
  match r with
  | inr err => Printf "skipping %q: %v" [fname; err];; mret stats
  | inl status =>
      let status :=
        if bnameFlag f then with_Name status (Base fname) else status in
      mret (append PcStatus_zero (grow_extra w (cap stats)) stats status)
  end.

Definition getStatsFromFiles (files : list string) : M (GoSlice PcStatus) :=
  for_range files getStats_body (make0 PcStatus_zero (length files)).

(** The chain of tests of [formatStats]. *)
Definition rendering : Rendering :=
  if jsonFlag f then FormatJson (negb (ppsFlag f))
  else if terseFlag f then FormatTerse
  else if histoFlag f then FormatHistogram
  else if unicodeFlag f then FormatUnicode
  else if plainFlag f then FormatPlain
  else FormatText.

Definition formatStats (stats : GoSlice PcStatus) : M unit :=
  emit (EFormat rendering (elems stats)).

Definition no_such_file : string := "no such file or directory".

(** The body of the loop of [getPidLds] over the directory entries. *)
Definition getPidLds_body (pid : Z) (entry : DirEntry)
    (maps : gmap string bool) : M (gmap string bool) :=
  if negb (IsDir entry) then
    let symlink := "/proc/" +:+ pretty pid +:+ "/fd/" +:+ EntryName entry in
    r ← os_Lstat symlink;
    match r with
    | inr err =>
        Printf "could not open '%s' for read: %v" [symlink; err];; mret maps
    | inl fi =>
        if negb (Z.land (Mode fi) ModeSymlink =? 0) then
          t ← filepath_EvalSymlinks symlink;
          match t with
          | inr err =>
              (if negb (Contains err no_such_file)
               then Printf "could not inspect symlink '%s': %v" [symlink; err]
               else mret ());;
              mret maps
          | inl target =>
              if kept target
              then mret (<[target := true]> maps)
              else mret maps
          end
        else mret maps
    end
  else mret maps.

Definition getPidLds (pid : Z) : M (list string) :=
  if pid =? Getpid w then mret []
  else
    let dirname := "/proc/" +:+ pretty pid +:+ "/fd" in
    r ← os_ReadDir dirname;
    match r with
    | inr err =>
        if negb (Contains err no_such_file)
        then Fatalf "could not open dir '%s': %v" [dirname; err]
        else Printf "skipping %s: %v" [dirname; err];; mret []
    | inl entries =>
        maps ← for_range entries (getPidLds_body pid) ∅;
        range_keys maps
    end.

(** The body of the loop of [top] over the processes kept. *)
Definition top_body (process : Process) (files : list string)
  : M (list string) :=
  pcstat_SwitchMountNs (Pid process);;
  maps ← getPidLds (Pid process);
  mret (files ++ maps).

Definition top (n : Z) : M unit :=
  p ← utils_Processes;
  match p with
  | inr err => Fatalf "err: %s" [err]
  | inl p =>
      if (length p <=? 0)%nat then Fatalf "Cannot find any process." []
      else
        let results := filter (λ p1, RSS p1 ≠ 0) p in
        files ← for_range results top_body [];
        let files := uniqueSlice files in
        stats ← getStatsFromFiles files;
        let stats := in_place (sort_Sort w Less) stats in
        match reslice stats n with
        | None => panic "slice bounds out of range"
        | Some topStats => formatStats topStats
        end
  end.

(** The lines of [main] that assemble [files]: the arguments, then the
    open files of the [-pid] process. *)
Definition main_files : M (list string) :=
  if negb (pidFlag f =? 0)
  then pcstat_SwitchMountNs (pidFlag f);;
       maps ← getPidLds (pidFlag f);
       mret (Args f ++ maps)
  else mret (Args f).

Definition main : M unit :=
  if negb (topFlag f =? 0) then top (topFlag f);; os_Exit 0
  else
    files ← main_files;
    if (length files =? 0)%nat then emit EUsage;; os_Exit 1
    else
      stats ← getStatsFromFiles files;
      let stats := in_place (sort_Sort w Less) stats in
      formatStats stats.
End Program.

(** A run starts in the caller's own namespace with an empty trace; [seed]
    is the state of the runtime's random source. *)
Definition start (seed : nat) : St := mkSt 0%nat seed [].

Definition run (w : World) (f : Flags) (Less : PcStatus → PcStatus → bool)
    (seed : nat) : Res unit :=
  main w f Less (start seed).

(** The lists handed to the renderer during a run, in order. *)
Definition formatted (t : list Event) : list (list PcStatus) :=
  omap (λ e, match e with EFormat _ stats => Some stats | _ => None end) t.

Definition res_state {A} (r : Res A) : St :=
  match r with Ret _ st => st | Stop _ st => st end.

(** ** Notions the properties are stated with *)

(** The record the census keeps for a path, when its residency query
    succeeds in namespace [n]. *)
Definition census_record (w : World) (f : Flags) (n : Ns) (fname : string)
  : option PcStatus :=
  match GetPcStatus w n fname with
  | inl status =>
      Some (if bnameFlag f then with_Name status (Base fname) else status)
  | inr _ => None
  end.

(** The log line for a path, when its residency query fails: the path and
    the reason. *)
Definition census_failure (w : World) (n : Ns) (fname : string)
  : option Event :=
  match GetPcStatus w n fname with
  | inl _ => None
  | inr err => Some (ELog "skipping %q: %v" [fname; err])
  end.

Definition census_records (w : World) (f : Flags) (n : Ns)
    (files : list string) : list PcStatus :=
  omap (census_record w f n) files.

Definition census_log (w : World) (n : Ns) (files : list string)
  : list Event :=
  omap (census_failure w n) files.

(** [p] is [root] or lies below it. *)
Definition under (root p : string) : Prop :=
  p = root ∨ HasPrefix p (root +:+ "/") = true.

(** A FileTarget: absolute, and neither a device nor a process-information
    path. *)
Definition FileTarget (p : string) : Prop :=
  HasPrefix p "/" = true ∧ ¬ under "/dev" p ∧ ¬ under "/proc" p.

(** The events a computation adds to the trace all satisfy [P], whether it
    returns or ends the run. *)
Definition emits_only {A} (P : Event → Prop) (m : M A) : Prop :=
  ∀ st, ∃ t, trace (res_state (m st)) = trace st ++ t ∧ Forall P t.

(** The first event a computation adds to the trace is [e]. *)
Definition starts_with {A} (e : Event) (m : M A) : Prop :=
  ∀ st, ∃ t, trace (res_state (m st)) = trace st ++ e :: t.

(** The same state, at another point of the runtime's random source. *)
Definition reseed (s : nat) (st : St) : St := mkSt (ns st) s (trace st).

Definition res_map {A} (g : St → St) (r : Res A) : Res A :=
  match r with
  | Ret a st => Ret a (g st)
  | Stop h st => Stop h (g st)
  end.

(** A computation that neither reads nor moves the random source. *)
Definition seed_free {A} (m : M A) : Prop :=
  ∀ s st, m (reseed s st) = res_map (reseed s) (m st).

(** Two outcomes of [getPidLds] that differ at most in the order of the
    paths and in the position of the random source. *)
Definition same_up_to_order (r1 r2 : Res (list string)) : Prop :=
  match r1, r2 with
  | Ret p1 st1, Ret p2 st2 =>
      p1 ≡ₚ p2 ∧ NoDup p1 ∧ NoDup p2
      ∧ ns st1 = ns st2 ∧ trace st1 = trace st2
  | Stop h1 st1, Stop h2 st2 =>
      h1 = h2 ∧ ns st1 = ns st2 ∧ trace st1 = trace st2
  | _, _ => False
  end.

(** The name of the descriptor directory, [fmt.Sprintf("/proc/%d/fd", pid)]. *)
Definition fd_dir (pid : Z) : string := "/proc/" +:+ pretty pid +:+ "/fd".

(** The same command line with another [-pid] value and other file
    arguments. *)
Definition with_pid_args (f : Flags) (pid : Z) (args : list string) : Flags :=
  mkFlags pid (topFlag f) (terseFlag f) (nohdrFlag f) (jsonFlag f)
    (unicodeFlag f) (plainFlag f) (ppsFlag f) (histoFlag f) (bnameFlag f) args.

(** ** Notions for the further properties *)

(** The flags as [init] registers them, before any is given on the command
    line: every one at its default, and the arguments [args]. *)
Definition init_flags (args : list string) : Flags :=
  mkFlags 0 0 false false false false false false false false args.

(** The same environment with another reallocation policy of the runtime. *)
Definition with_grow (w : World) (g : nat → nat) : World :=
  mkWorld (Getpid w) (Processes w) (SwitchMountNs w) (ReadDir w) (Lstat w)
    (EvalSymlinks w) (GetPcStatus w) (map_order w) g (long_sort w).

(** The name of a descriptor link,
    [fmt.Sprintf("/proc/%d/fd/%s", pid, entry.Name())]. *)
Definition fd_link (pid : Z) (entry : DirEntry) : string :=
  "/proc/" +:+ pretty pid +:+ "/fd/" +:+ EntryName entry.

(** The path a directory entry contributes, seen from namespace [n]: the
    entry is not a directory, it can be inspected, it is a symbolic link, the
    link resolves, and the target passes the test. *)
Definition entry_target (w : World) (n : Ns) (pid : Z) (entry : DirEntry)
  : option string :=
  if IsDir entry then None
  else match Lstat w n (fd_link pid entry) with
       | inr _ => None
       | inl fi =>
           if Z.land (Mode fi) ModeSymlink =? 0 then None
           else match EvalSymlinks w n (fd_link pid entry) with
                | inr _ => None
                | inl target => if kept target then Some target else None
                end
       end.

(** The line a directory entry adds to the log: one when the entry cannot be
    inspected, one when its link cannot be resolved for a reason other than
    a missing file. *)
Definition entry_log (w : World) (n : Ns) (pid : Z) (entry : DirEntry)
  : option Event :=
  if IsDir entry then None
  else match Lstat w n (fd_link pid entry) with
       | inr err =>
           Some (ELog "could not open '%s' for read: %v"
                   [fd_link pid entry; err])
       | inl fi =>
           if Z.land (Mode fi) ModeSymlink =? 0 then None
           else match EvalSymlinks w n (fd_link pid entry) with
                | inr err =>
                    if Contains err no_such_file then None
                    else Some (ELog "could not inspect symlink '%s': %v"
                                 [fd_link pid entry; err])
                | inl _ => None
                end
       end.

Definition resolved_targets (w : World) (n : Ns) (pid : Z)
    (entries : list DirEntry) : list string :=
  omap (entry_target w n pid) entries.

Definition resolver_log (w : World) (n : Ns) (pid : Z)
    (entries : list DirEntry) : list Event :=
  omap (entry_log w n pid) entries.

(** The array [top] slices: the ranked records, then one zero value per path
    whose query failed. *)
Definition top_array (w : World) (f : Flags)
    (Less : PcStatus → PcStatus → bool) (n : Ns) (files : list string)
  : list PcStatus :=
  sort_Sort w Less (census_records w f n files) ++
  replicate (length files - length (census_records w f n files)) PcStatus_zero.

(** The processes [top] scans: those with resident memory. *)
Definition scanned (p : list Process) : list Process :=
  filter (λ p1, RSS p1 ≠ 0) p.

(** An order to instantiate [Less] with in a concrete run: by the number of
    cached pages alone, most cached first. *)
Definition by_cached (a b : PcStatus) : bool := Cached b <? Cached a.

(** ** A small host, for the concrete runs below

    Process 10 holds a terminal and two data files open; process 11 has no
    resident memory; process 12 holds one of the same data files and a file
    that is gone by the time it is queried; the descriptor directory of
    process 13 is unreadable, that of process 14 has disappeared. *)
Module Demo.

Definition lookup_path {A} (table : list (string * A)) (p : string)
  : A + string :=
  match list_find (λ e, e.1 = p) table with
  | Some (_, (_, a)) => inl a
  | None => inr (p +:+ ": no such file or directory")
  end.

Definition link : FileInfo := mkFileInfo (Z.lor ModeSymlink 511).
Definition plain_file : FileInfo := mkFileInfo 420.

Definition data_a : PcStatus := mkPcStatus "/data/a" 16384 4 4 0.
Definition data_b : PcStatus := mkPcStatus "/data/b" 16384 4 2 2.
Definition logs_a : PcStatus := mkPcStatus "/logs/a" 12000 3 3 0.
Definition other_a : PcStatus := mkPcStatus "/other/a" 16000 4 4 0.

Definition dirs : list (string * list DirEntry) :=
  [("/proc/10/fd",
     [mkDirEntry "0" false; mkDirEntry "3" false; mkDirEntry "4" false;
      mkDirEntry "5" false; mkDirEntry "6" false]);
   ("/proc/12/fd", [mkDirEntry "7" false; mkDirEntry "8" false]);
   ("/proc/15/fd", [mkDirEntry "1" false; mkDirEntry "2" false])].

Definition links : list (string * string) :=
  [("/proc/10/fd/0", "/dev/pts/0");
   ("/proc/10/fd/3", "/data/b");
   ("/proc/10/fd/4", "/data/a");
   ("/proc/10/fd/5", "/proc/10/status");
   ("/proc/10/fd/6", "/data/b");
   ("/proc/12/fd/7", "/data/a");
   ("/proc/12/fd/8", "/data/gone");
   ("/proc/15/fd/1", "/data/a");
   ("/proc/15/fd/2", "/other/a")].

Definition files : list (string * PcStatus) :=
  [("/data/a", data_a); ("/data/b", data_b); ("/logs/a", logs_a);
   ("/other/a", other_a)].

Definition read_dir (dirname : string) : list DirEntry + string :=
  if String.eqb dirname "/proc/13/fd"
  then inr "open /proc/13/fd: permission denied"
  else match lookup_path dirs dirname with
       | inl es => inl es
       | inr _ => inr ("open " +:+ dirname +:+ ": no such file or directory")
       end.

Definition lstat (name : string) : FileInfo + string :=
  match lookup_path links name with
  | inl _ => inl link
  | inr e => inr ("lstat " +:+ e)
  end.

(** The runtime starts a range at a position drawn from its random source:
    here, forwards for an even seed and backwards for an odd one. *)
Definition order (seed : nat) (m : gmap string bool) : list string :=
  if Nat.even seed then (map_to_list m).*1 else reverse (map_to_list m).*1.

(** A sort within the promise of the package, for the ranges that are too
    long for [insertionSort]: the merge sort of the library. *)
Definition long_range_sort (less : PcStatus → PcStatus → bool)
    (l : list PcStatus) : {l' : list PcStatus | sorts less l l'}.
Proof.
  exists (@merge_sort _ (λ a b, less b a = false)
            (λ a b, decide (less b a = false)) l). split.
  - apply merge_sort_Permutation.
  - intros asym negtrans. apply StronglySorted_merge_sort.
    + intros a b c Hab Hbc. by apply (negtrans c b a).
    + intros a b. destruct (less b a) eqn:Hba; [right; by apply asym|by left].
Defined.

Definition host (procs : list Process) : World :=
  mkWorld 1
    (λ _, inl procs)
    (λ ns _, ns)
    (λ _, read_dir)
    (λ _, lstat)
    (λ _, lookup_path links)
    (λ _, lookup_path files)
    order
    (λ n, n)
    long_range_sort.

Definition fleet : World :=
  host [mkProcess 10 5; mkProcess 11 0; mkProcess 12 7].

(** A host whose only process has two files of the same base name open. *)
Definition twins : World := host [mkProcess 15 9].

(** The fleet with a process whose descriptor directory is unreadable. *)
Definition locked : World :=
  host [mkProcess 10 5; mkProcess 13 4; mkProcess 12 3].

(** The fleet with a process that has exited since it was listed. *)
Definition vanished : World :=
  host [mkProcess 10 5; mkProcess 14 4; mkProcess 12 3].

Definition flags (pid top : Z) (bname : bool) (args : list string) : Flags :=
  mkFlags pid top false false false false false false false bname args.

End Demo.

(** * Properties *)

(** ** The Deduplicator *)

Section Dedup.
Implicit Types (l : list string) (x y : string).

Lemma first_occurrences_snoc l x :
  first_occurrences (l ++ [x]) =
  if decide (x ∈ l) then first_occurrences l else first_occurrences l ++ [x].
Proof.
  induction l as [|a l IH].
  - case_decide as Hin; [by apply elem_of_nil in Hin|done].
  - cbn [app first_occurrences]. rewrite IH.
    destruct (decide (x ∈ l)) as [Hin|Hin].
    + rewrite decide_True by (by right). done.
    + rewrite filter_app. destruct (decide (x = a)) as [->|Hne].
      * rewrite decide_True by (by left).
        rewrite filter_cons_False by (intros H; by apply H).
        by rewrite filter_nil, app_nil_r.
      * rewrite decide_False by (rewrite elem_of_cons; intros [?|?]; done).
        rewrite filter_cons_True by done. by rewrite filter_nil.
Qed.

Lemma first_occurrences_elem l x : x ∈ first_occurrences l ↔ x ∈ l.
Proof.
  induction l as [|a l IH]; simpl; [done|].
  rewrite !elem_of_cons, list_elem_of_filter, IH. split.
  - intros [?|[_ ?]]; auto.
  - intros [?|?]; [by left|]. destruct (decide (x = a)); [by left|by right].
Qed.

Lemma first_occurrences_NoDup l : NoDup (first_occurrences l).
Proof.
  induction l as [|a l IH]; simpl; constructor.
  - intros [Hne _]%list_elem_of_filter. by apply Hne.
  - by apply NoDup_filter.
Qed.

Lemma first_at_snoc l p x z : first_at l p x → first_at (l ++ [z]) p x.
Proof.
  intros [Hp Hnot]. pose proof (lookup_lt_Some _ _ _ Hp) as Hlt. split.
  - by rewrite lookup_app_l.
  - by rewrite take_app_le by lia.
Qed.

Lemma first_at_end l z : z ∉ l → first_at (l ++ [z]) (length l) z.
Proof.
  intros Hz. split.
  - by rewrite list_lookup_middle.
  - by rewrite take_app_length.
Qed.

Lemma first_occurrences_lookup l i x :
  first_occurrences l !! i = Some x → ∃ p, first_at l p x.
Proof.
  revert i x. induction l as [|z l IH] using rev_ind; intros i x; [done|].
  rewrite first_occurrences_snoc. destruct (decide (z ∈ l)) as [Hz|Hz].
  - intros [p Hp]%IH. exists p. by apply first_at_snoc.
  - intros [Hi|[_ Hi]]%lookup_app_Some.
    + apply IH in Hi as [p Hp]. exists p. by apply first_at_snoc.
    + apply list_lookup_singleton_Some in Hi as [_ <-].
      exists (length l). by apply first_at_end.
Qed.

Lemma first_occurrences_order l i j x y :
  (i < j)%nat →
  first_occurrences l !! i = Some x →
  first_occurrences l !! j = Some y →
  ∃ p q, first_at l p x ∧ first_at l q y ∧ (p < q)%nat.
Proof.
  revert i j x y. induction l as [|z l IH] using rev_ind;
    intros i j x y Hij; [done|].
  rewrite first_occurrences_snoc. destruct (decide (z ∈ l)) as [Hz|Hz].
  - intros Hi Hj. destruct (IH _ _ _ _ Hij Hi Hj) as (p & q & ? & ? & ?).
    exists p, q. by eauto using first_at_snoc.
  - intros Hi [Hj|[Hlen Hj]]%lookup_app_Some.
    + pose proof (lookup_lt_Some _ _ _ Hj).
      rewrite lookup_app_l in Hi by lia.
      destruct (IH _ _ _ _ Hij Hi Hj) as (p & q & ? & ? & ?).
      exists p, q. by eauto using first_at_snoc.
    + apply list_lookup_singleton_Some in Hj as [Hj <-].
      rewrite lookup_app_l in Hi by lia.
      apply first_occurrences_lookup in Hi as [p Hp].
      exists p, (length l). split_and!.
      * by apply first_at_snoc.
      * by apply first_at_end.
      * destruct Hp as [Hp _]. by apply lookup_lt_Some in Hp.
Qed.

(** The state of the loop of [uniqueSlice] after [n] iterations. *)
Lemma uniqueSlice_loop_inv l n st :
  (n ≤ length l)%nat →
  st = foldl uniqueSlice_step (mkUnique l ∅ 0) (seq 0 n) →
  take (u_total st) (u_slice st) = first_occurrences (take n l)
  ∧ u_total st = length (first_occurrences (take n l))
  ∧ (u_total st ≤ n)%nat
  ∧ length (u_slice st) = length l
  ∧ drop n (u_slice st) = drop n l
  ∧ ∀ x, is_Some (u_found st !! x) ↔ x ∈ take n l.
Proof.
  revert st. induction n as [|n IH]; intros st' Hn ->.
  - simpl. split_and!; try done. intros x. rewrite lookup_empty, elem_of_nil.
    split; [by intros [? ?]|done].
  - rewrite seq_S, foldl_snoc. cbn [Nat.add].
    destruct (IH _ ltac:(lia) eq_refl)
      as (Htake & Htot & Hle & Hlen & Hdrop & Hfound).
    set (st := foldl uniqueSlice_step (mkUnique l ∅ 0) (seq 0 n)) in *.
    destruct (lookup_lt_is_Some_2 l n) as [x Hx]; [lia|].
    assert (u_slice st !! n = Some x) as Hsx.
    { pose proof (lookup_drop (u_slice st) n 0) as Hl.
      rewrite Hdrop, lookup_drop, Nat.add_0_r in Hl. congruence. }
    rewrite (take_S_r _ _ _ Hx), first_occurrences_snoc.
    unfold uniqueSlice_step. rewrite Hsx.
    assert (drop (S n) (u_slice st) = drop (S n) l) as Hdrop'.
    { replace (S n) with (n + 1)%nat by lia.
      by rewrite <- !drop_drop, Hdrop. }
    destruct (u_found st !! x) as [b|] eqn:Hf.
    + rewrite decide_True by (apply Hfound; eauto).
      split_and!; try done; [lia|].
      intros y. rewrite Hfound, elem_of_app, list_elem_of_singleton.
      split; [by left|]. intros [?| ->]; [done|]. apply Hfound. eauto.
    + assert (x ∉ take n l) as Hnot.
      { intros Hin%Hfound. rewrite Hf in Hin. by destruct Hin. }
      rewrite decide_False by done. simpl.
      split_and!.
      * rewrite (take_S_r _ _ x).
        -- by rewrite take_insert_ge by lia; rewrite Htake.
        -- apply list_lookup_insert_eq. lia.
      * rewrite length_app. simpl. lia.
      * lia.
      * by rewrite length_insert.
      * by rewrite drop_insert_lt by lia.
      * intros y. rewrite elem_of_app, list_elem_of_singleton, <- Hfound.
        destruct (decide (x = y)) as [->|Hne].
        -- rewrite lookup_insert_eq. split; [by right|eauto].
        -- rewrite lookup_insert_ne by done.
           split; [by left|]. by intros [?|?].
Qed.

(** The in-place loop computes the first occurrences. *)
Lemma uniqueSlice_first_occurrences l : uniqueSlice l = first_occurrences l.
Proof.
  unfold uniqueSlice, uniqueSlice_loop.
  destruct (uniqueSlice_loop_inv l (length l) _ ltac:(done) eq_refl)
    as (Htake & _).
  by rewrite Htake, firstn_all.
Qed.
End Dedup.

(** ** Slices and ranking *)

Section SliceFacts.
Context {A : Type} (zero : A).
Implicit Types (s : GoSlice A) (x : A).

Lemma elems_length s : (slen s ≤ cap s)%nat → length (elems s) = slen s.
Proof. unfold elems, cap. intros. rewrite length_take. lia. Qed.

Lemma append_in_cap extra s x :
  (slen s < cap s)%nat →
  let s' := append zero extra s x in
  elems s' = elems s ++ [x] ∧ cap s' = cap s ∧ slen s' = S (slen s)
  ∧ drop (slen s') (backing s') = drop (slen s') (backing s).
Proof.
  intros Hlt. unfold append. rewrite decide_True by done.
  unfold elems, cap in *. simpl. split_and!.
  - rewrite (take_S_r _ _ x) by (by apply list_lookup_insert_eq).
    by rewrite take_insert_ge by lia.
  - by rewrite length_insert.
  - done.
  - by rewrite drop_insert_lt by lia.
Qed.

Lemma elems_in_place (g : list A → list A) s :
  (slen s ≤ cap s)%nat →
  (∀ l, length (g l) = length l) →
  elems (in_place g s) = g (elems s) ∧ cap (in_place g s) = cap s
  ∧ slen (in_place g s) = slen s
  ∧ drop (slen s) (backing (in_place g s)) = drop (slen s) (backing s).
Proof.
  intros Hle Hg. pose proof (elems_length s Hle) as Hlen.
  unfold in_place, elems, cap in *. simpl. split_and!.
  - rewrite take_app_length'; [done|]. by rewrite Hg.
  - rewrite length_app, Hg, length_drop. lia.
  - done.
  - rewrite drop_app_length'; [done|]. by rewrite Hg.
Qed.

(** [s[:n]] with [n] within the length: the first [n] elements. *)
Lemma reslice_within s n :
  (slen s ≤ cap s)%nat → 0 ≤ n ≤ Z.of_nat (slen s) →
  ∃ s', reslice s n = Some s' ∧ elems s' = take (Z.to_nat n) (elems s).
Proof.
  intros Hle Hn. unfold reslice. rewrite decide_True by lia.
  eexists; split; [done|]. unfold elems. simpl.
  rewrite take_take. f_equal. lia.
Qed.

(** [s[:n]] with [n] between the length and the capacity: the elements,
    then what the backing array holds behind them. *)
Lemma reslice_beyond_length s n :
  (slen s ≤ cap s)%nat → Z.of_nat (slen s) ≤ n ≤ Z.of_nat (cap s) →
  ∃ s', reslice s n = Some s' ∧
    elems s' = elems s ++ take (Z.to_nat n - slen s) (drop (slen s) (backing s)).
Proof.
  intros Hle Hn. unfold reslice. rewrite decide_True by lia.
  eexists; split; [done|]. unfold elems. simpl.
  rewrite <- (take_drop (slen s) (backing s)) at 1.
  rewrite take_app, length_take, take_take.
  unfold cap in *. repeat f_equal; lia.
Qed.

(** [s[:n]] with [n] negative or beyond the capacity panics. *)
Lemma reslice_out_of_range s n :
  n < 0 ∨ Z.of_nat (cap s) < n → reslice s n = None.
Proof. intros Hn. unfold reslice. rewrite decide_False by lia. done. Qed.
End SliceFacts.

Section SortFacts.
Context {A : Type} (less : A → A → bool).

Lemma move_left_perm (x : A) r : move_left less x r ≡ₚ x :: r.
Proof.
  induction r as [|y r IH]; simpl; [done|].
  destruct (less x y); [|done]. rewrite IH. apply Permutation_swap.
Qed.

Lemma insertion_perm (l acc : list A) :
  foldl (λ rprefix x, move_left less x rprefix) acc l ≡ₚ acc ++ l.
Proof.
  revert acc. induction l as [|x l IH]; intros acc; simpl.
  - by rewrite app_nil_r.
  - rewrite IH, move_left_perm. simpl. apply Permutation_middle.
Qed.

Lemma insertionSort_perm (l : list A) : insertionSort less l ≡ₚ l.
Proof.
  unfold insertionSort. by rewrite reverse_Permutation, insertion_perm.
Qed.
End SortFacts.

(** Ranking rearranges the records, it neither drops nor adds one. *)
Lemma sort_Sort_perm w less (l : list PcStatus) : sort_Sort w less l ≡ₚ l.
Proof.
  unfold sort_Sort. case_decide; [apply insertionSort_perm|].
  apply (proj2_sig (long_sort w less l)).
Qed.

Lemma sort_Sort_length w less (l : list PcStatus) :
  length (sort_Sort w less l) = length l.
Proof. by rewrite sort_Sort_perm. Qed.

(** ** Computations and their traces *)

Section Traces.
Context {A B : Type} (P : Event → Prop).

Lemma emits_only_ret (a : A) : emits_only P (mret a).
Proof. intros st. exists []. by rewrite app_nil_r. Qed.

Lemma emits_only_halt h : emits_only P (@halt A h).
Proof. intros st. exists []. by rewrite app_nil_r. Qed.

Lemma emits_only_gets (g : St → A) : emits_only P (gets g).
Proof. intros st. exists []. by rewrite app_nil_r. Qed.

Lemma emits_only_modify (g : St → St) :
  (∀ st, trace (g st) = trace st) → emits_only P (modify g).
Proof. intros Hg st. exists []. simpl. by rewrite Hg, app_nil_r. Qed.

Lemma emits_only_emit e : P e → emits_only P (emit e).
Proof. intros He st. exists [e]. split; [done|]. by constructor. Qed.

Lemma emits_only_bind (m : M A) (k : A → M B) :
  emits_only P m → (∀ a, emits_only P (k a)) → emits_only P (m ≫= k).
Proof.
  intros Hm Hk st. destruct (Hm st) as (t1 & Ht1 & HP1).
  unfold mbind, M_bind. destruct (m st) as [a st1|h st1]; simpl in *.
  - destruct (Hk a st1) as (t2 & Ht2 & HP2). exists (t1 ++ t2).
    rewrite Ht2, Ht1, app_assoc. split; [done|]. by apply Forall_app.
  - by exists t1.
Qed.
End Traces.

Lemma emits_only_for_range {A S} (P : Event → Prop) (xs : list A)
    (body : A → S → M S) (acc : S) :
  (∀ x acc, emits_only P (body x acc)) → emits_only P (for_range xs body acc).
Proof.
  intros Hbody. revert acc. induction xs as [|x xs IH]; intros acc; simpl.
  - apply emits_only_ret.
  - apply emits_only_bind; [apply Hbody|]. intros a. apply IH.
Qed.

Lemma emits_only_weaken {A} (P Q : Event → Prop) (m : M A) :
  (∀ e, P e → Q e) → emits_only P m → emits_only Q m.
Proof.
  intros HPQ Hm st. destruct (Hm st) as (t & Ht & HP). exists t.
  split; [done|]. by eapply Forall_impl.
Qed.

(** Steps through a computation built from the primitives. *)
Ltac emits_step :=
  first
    [ apply emits_only_ret
    | apply emits_only_halt
    | apply emits_only_gets
    | apply emits_only_emit
    | apply emits_only_modify; intros; reflexivity
    | apply emits_only_for_range; intros
    | apply emits_only_bind; [|intros] ].

Lemma for_range_cons {A S} (x : A) (r : list A) (body : A → S → M S)
    (acc : S) (st : St) :
  for_range (x :: r) body acc st =
  match body x acc st with
  | Ret acc' st' => for_range r body acc' st'
  | Stop h st' => Stop h st'
  end.
Proof. reflexivity. Qed.

(** What holds of the accumulator at the start, and is kept by every turn
    of the body that returns, holds at the end of the loop. *)
Lemma for_range_inv {A S} (I : S → Prop) (xs : list A) (body : A → S → M S) :
  (∀ x acc st acc' st', I acc → body x acc st = Ret acc' st' → I acc') →
  ∀ acc st acc' st',
    I acc → for_range xs body acc st = Ret acc' st' → I acc'.
Proof.
  intros Hbody. induction xs as [|x xs IH]; intros acc st acc' st' HI.
  - intros [= <- <-]. done.
  - rewrite for_range_cons. destruct (body x acc st) as [a1 st1|] eqn:Hb; [|done].
    apply IH. by eapply Hbody.
Qed.

(** ** The CensusCollector *)

Section Census.
Context (w : World) (f : Flags).

Lemma getStats_body_ok fname stats st status :
  GetPcStatus w (ns st) fname = inl status →
  getStats_body w f fname stats st =
  Ret (append PcStatus_zero (grow_extra w (cap stats)) stats
         (if bnameFlag f then with_Name status (Base fname) else status)) st.
Proof.
  intros H. unfold getStats_body, pcstat_GetPcStatus, gets, mbind, M_bind.
  by rewrite H.
Qed.

Lemma getStats_body_err fname stats st err :
  GetPcStatus w (ns st) fname = inr err →
  getStats_body w f fname stats st =
  Ret stats (mkSt (ns st) (seed st)
               (trace st ++ [ELog "skipping %q: %v" [fname; err]])).
Proof.
  intros H. unfold getStats_body, pcstat_GetPcStatus, gets, mbind, M_bind.
  by rewrite H.
Qed.

Lemma census_records_cons n fname files :
  census_records w f n (fname :: files) =
  match census_record w f n fname with
  | Some r => r :: census_records w f n files
  | None => census_records w f n files
  end.
Proof. reflexivity. Qed.

Lemma census_log_cons n fname files :
  census_log w n (fname :: files) =
  match census_failure w n fname with
  | Some e => e :: census_log w n files
  | None => census_log w n files
  end.
Proof. reflexivity. Qed.

Lemma census_records_length n files :
  (length (census_records w f n files) ≤ length files)%nat.
Proof.
  induction files as [|x r IH]; [done|]. rewrite census_records_cons.
  destruct (census_record w f n x); simpl; lia.
Qed.

(** The loop of [getStatsFromFiles], from any slice with room for the
    remaining files. *)
Lemma getStats_loop files s0 st :
  (slen s0 + length files ≤ cap s0)%nat →
  ∃ s,
    for_range files (getStats_body w f) s0 st =
      Ret s (mkSt (ns st) (seed st)
               (trace st ++ census_log w (ns st) files))
    ∧ elems s = elems s0 ++ census_records w f (ns st) files
    ∧ cap s = cap s0
    ∧ slen s = (slen s0 + length (census_records w f (ns st) files))%nat
    ∧ drop (slen s) (backing s) = drop (slen s) (backing s0).
Proof.
  revert s0 st. induction files as [|x r IH]; intros s0 st Hroom.
  - exists s0. simpl. rewrite !app_nil_r, Nat.add_0_r.
    by destruct st.
  - simpl in Hroom. rewrite for_range_cons, census_records_cons, census_log_cons.
    unfold census_record, census_failure.
    destruct (GetPcStatus w (ns st) x) as [status|err] eqn:Hq.
    + rewrite (getStats_body_ok _ _ _ _ Hq).
      set (rec := if bnameFlag f then _ else _).
      destruct (append_in_cap PcStatus_zero (grow_extra w (cap s0)) s0 rec)
        as (Hel & Hcap & Hlen & Hdrop); [lia|].
      set (s1 := append _ _ s0 rec) in *.
      destruct (IH s1 st) as (s & Hrun & Hels & Hc & Hl & Hd); [lia|].
      exists s. split_and!.
      * done.
      * by rewrite Hels, Hel, <- app_assoc.
      * congruence.
      * rewrite Hl, Hlen. simpl. lia.
      * rewrite Hd.
        replace (slen s) with (slen s1 + (slen s - slen s1))%nat by lia.
        by rewrite <- !drop_drop, Hdrop.
    + rewrite (getStats_body_err _ _ _ _ Hq).
      destruct (IH s0 (mkSt (ns st) (seed st)
                         (trace st ++ [ELog "skipping %q: %v" [x; err]])))
        as (s & Hrun & Hels & Hc & Hl & Hd); [lia|].
      exists s. rewrite Hrun. simpl in *. rewrite <- app_assoc.
      by split_and!.
Qed.

(** [getStatsFromFiles] always returns: the records of the paths whose
    query succeeds, in input order, in an array with one slot per path,
    the unused slots holding the zero value; one log line per failure. *)
Lemma getStatsFromFiles_spec files st :
  ∃ s,
    getStatsFromFiles w f files st =
      Ret s (mkSt (ns st) (seed st)
               (trace st ++ census_log w (ns st) files))
    ∧ elems s = census_records w f (ns st) files
    ∧ cap s = length files
    ∧ slen s = length (census_records w f (ns st) files)
    ∧ drop (slen s) (backing s) =
        replicate (length files - slen s) PcStatus_zero.
Proof.
  unfold getStatsFromFiles.
  destruct (getStats_loop files (make0 PcStatus_zero (length files)) st)
    as (s & Hrun & Hels & Hc & Hl & Hd).
  { unfold cap, make0. simpl. by rewrite length_replicate. }
  assert (cap (make0 PcStatus_zero (length files)) = length files) as Hcap.
  { unfold cap, make0. simpl. by rewrite length_replicate. }
  exists s. split_and!; [done|by rewrite Hels|congruence|by rewrite Hl|].
  rewrite Hd. unfold make0. simpl. by rewrite drop_replicate.
Qed.
End Census.

(** ** The PathResolver *)

Section Prefixes.
Implicit Types (p a b : string).

Lemma HasPrefix_refl p : HasPrefix p p = true.
Proof.
  induction p as [|c p IH]; [done|].
  cbn [HasPrefix]. rewrite Ascii.eqb_refl. exact IH.
Qed.

Lemma HasPrefix_app p a b : HasPrefix p (a +:+ b) = true → HasPrefix p a = true.
Proof.
  revert p. induction a as [|c a IH]; intros p; simpl; [done|].
  destruct p as [|d p]; [done|]. destruct (Ascii.eqb c d); [apply IH|done].
Qed.

(** A path below a root starts with the root. *)
Lemma under_HasPrefix root p : under root p → HasPrefix p root = true.
Proof.
  intros [->|H]; [apply HasPrefix_refl|by eapply HasPrefix_app].
Qed.

Lemma kept_FileTarget p : kept p = true → FileTarget p.
Proof.
  unfold kept. rewrite !andb_true_iff, !negb_true_iff.
  intros [[Habs Hdev] Hproc]. split_and!; [done|..];
    intros H%under_HasPrefix; congruence.
Qed.
End Prefixes.

Section Resolver.
Context (w : World).

Lemma getPidLds_body_kept pid entry (maps maps' : gmap string bool) st st' :
  (∀ k, is_Some (maps !! k) → kept k = true) →
  getPidLds_body w pid entry maps st = Ret maps' st' →
  ∀ k, is_Some (maps' !! k) → kept k = true.
Proof.
  intros HI. unfold getPidLds_body, os_Lstat, filepath_EvalSymlinks, Printf,
    emit, gets, mbind, M_bind, mret, M_ret.
  destruct (IsDir entry); cbn [negb]; [by intros [= <- <-]|].
  destruct (Lstat w _ _) as [fi|err]; [|by intros [= <- <-]].
  destruct (Z.land (Mode fi) ModeSymlink =? 0); cbn [negb];
    [by intros [= <- <-]|].
  destruct (EvalSymlinks w _ _) as [target|err].
  - destruct (kept target) eqn:Hk; intros [= <- <-]; [|done].
    intros k. rewrite lookup_insert. case_decide as Hkt; [by subst|apply HI].
  - destruct (negb (Contains err no_such_file)); by intros [= <- <-].
Qed.

Lemma getPidLds_loop_kept pid entries (maps : gmap string bool) st st' :
  for_range entries (getPidLds_body w pid) ∅ st = Ret maps st' →
  ∀ k, is_Some (maps !! k) → kept k = true.
Proof.
  apply (for_range_inv (λ m : gmap string bool,
                          ∀ k, is_Some (m !! k) → kept k = true)).
  - intros ??????. by eapply getPidLds_body_kept.
  - intros k. rewrite lookup_empty. by intros [? ?].
Qed.

(** [getPidLds] on a process other than the program itself. *)
Lemma getPidLds_unfold pid st :
  pid ≠ Getpid w →
  getPidLds w pid st =
  match ReadDir w (ns st) (fd_dir pid) with
  | inr err =>
      if negb (Contains err no_such_file)
      then Fatalf "could not open dir '%s': %v" [fd_dir pid; err] st
      else (Printf "skipping %s: %v" [fd_dir pid; err];; mret []) st
  | inl entries =>
      match for_range entries (getPidLds_body w pid) ∅ st with
      | Ret maps st1 => range_keys w maps st1
      | Stop h st1 => Stop h st1
      end
  end.
Proof.
  intros Hpid. unfold getPidLds. rewrite (proj2 (Z.eqb_neq _ _) Hpid).
  unfold os_ReadDir, gets, mbind at 1, M_bind at 1. fold (fd_dir pid).
  destruct (ReadDir w (ns st) (fd_dir pid)) as [entries|err]; [done|].
  by destruct (negb (Contains err no_such_file)).
Qed.

Lemma getPidLds_self st : getPidLds w (Getpid w) st = Ret [] st.
Proof. unfold getPidLds. by rewrite Z.eqb_refl. Qed.
End Resolver.

(** ** Independence from the random source *)

Section SeedFree.
Context {A B : Type}.

Lemma seed_free_ret (a : A) : seed_free (mret a).
Proof. done. Qed.

Lemma seed_free_halt h : seed_free (@halt A h).
Proof. done. Qed.

Lemma seed_free_emit e : seed_free (emit e).
Proof. done. Qed.

Lemma seed_free_gets (g : St → A) :
  (∀ s st, g (reseed s st) = g st) → seed_free (gets g).
Proof. intros Hg s st. unfold gets. by rewrite Hg. Qed.

Lemma seed_free_bind (m : M A) (k : A → M B) :
  seed_free m → (∀ a, seed_free (k a)) → seed_free (m ≫= k).
Proof.
  intros Hm Hk s st. unfold mbind, M_bind. rewrite Hm.
  destruct (m st) as [a st1|h st1]; simpl; [apply Hk|done].
Qed.
End SeedFree.

Lemma seed_free_for_range {A S} (xs : list A) (body : A → S → M S) (acc : S) :
  (∀ x acc, seed_free (body x acc)) → seed_free (for_range xs body acc).
Proof.
  intros Hbody. revert acc. induction xs as [|x xs IH]; intros acc; simpl.
  - apply seed_free_ret.
  - apply seed_free_bind; [apply Hbody|]. intros a. apply IH.
Qed.

Lemma getPidLds_body_seed_free w pid entry maps :
  seed_free (getPidLds_body w pid entry maps).
Proof.
  unfold getPidLds_body. destruct (IsDir entry); simpl; [apply seed_free_ret|].
  apply seed_free_bind; [by apply seed_free_gets|]. intros [fi|err].
  - destruct (negb _); [|apply seed_free_ret].
    apply seed_free_bind; [by apply seed_free_gets|]. intros [target|err].
    + destruct (kept target); apply seed_free_ret.
    + apply seed_free_bind; [|intros; apply seed_free_ret].
      destruct (negb _); [apply seed_free_emit|apply seed_free_ret].
  - apply seed_free_bind; [apply seed_free_emit|intros; apply seed_free_ret].
Qed.

(** ** What each part of the program can emit *)

Ltac emits_auto :=
  repeat first
    [ emits_step
    | match goal with
      | |- emits_only _ (match ?x with _ => _ end) => destruct x
      | |- emits_only _ (if ?b then _ else _) => destruct b
      end
    | done ].

Section Emits.
Context (w : World) (f : Flags) (Less : PcStatus → PcStatus → bool).
Context (P : Event → Prop).
Context (Plog : ∀ format args, P (ELog format args)).

Lemma getStatsFromFiles_emits files : emits_only P (getStatsFromFiles w f files).
Proof.
  unfold getStatsFromFiles, getStats_body, pcstat_GetPcStatus, Printf.
  emits_auto.
Qed.

Lemma getPidLds_emits pid : emits_only P (getPidLds w pid).
Proof.
  unfold getPidLds, getPidLds_body, range_keys, os_ReadDir, os_Lstat,
    filepath_EvalSymlinks, Fatalf, Printf.
  emits_auto.
Qed.

Lemma main_files_emits :
  (∀ pid, P (ESwitchMountNs pid)) → emits_only P (main_files w f).
Proof.
  intros Pns. unfold main_files, pcstat_SwitchMountNs.
  destruct (negb _); [|emits_auto].
  emits_auto. apply getPidLds_emits.
Qed.

(** Everything [main] does when [-top] is not given. *)
Lemma default_mode_emits :
  (∀ pid, P (ESwitchMountNs pid)) → P EUsage → (∀ r stats, P (EFormat r stats)) →
  topFlag f = 0 → emits_only P (main w f Less).
Proof.
  intros Pns Pusage Pformat Htop. unfold main. rewrite Htop. cbn [Z.eqb negb].
  apply emits_only_bind; [by apply main_files_emits|]. intros files.
  destruct (_ =? _)%nat.
  - unfold os_Exit. emits_auto.
  - apply emits_only_bind; [apply getStatsFromFiles_emits|]. intros stats.
    unfold formatStats. emits_auto.
Qed.
End Emits.

Section TopMode.
Context (w : World) (f : Flags) (Less : PcStatus → PcStatus → bool).

Lemma starts_with_emit {A} e (m : M A) :
  emits_only (λ _, True) m → starts_with e (emit e;; m).
Proof.
  intros Hm st. unfold mbind, M_bind, emit.
  destruct (Hm (mkSt (ns st) (seed st) (trace st ++ [e]))) as (t & Ht & _).
  exists t. rewrite Ht. simpl. by rewrite <- app_assoc.
Qed.

Lemma starts_with_bind {A B} e (m : M A) (k : A → M B) :
  starts_with e m → (∀ a, emits_only (λ _, True) (k a)) →
  starts_with e (m ≫= k).
Proof.
  intros Hm Hk st. destruct (Hm st) as (t1 & Ht1). unfold mbind, M_bind.
  destruct (m st) as [a st1|h st1]; simpl in *.
  - destruct (Hk a st1) as (t2 & Ht2 & _). exists (t1 ++ t2).
    by rewrite Ht2, Ht1, <- app_assoc.
  - by exists t1.
Qed.

Lemma top_body_emits process files :
  emits_only (λ _, True) (top_body w process files).
Proof.
  unfold top_body, pcstat_SwitchMountNs. emits_auto. by apply getPidLds_emits.
Qed.

(** [top] begins by asking for the process table. *)
Lemma top_starts n : starts_with EProcesses (top w f Less n).
Proof.
  unfold top, utils_Processes. apply starts_with_bind.
  - apply starts_with_emit. emits_auto.
  - intros [p|err]; unfold Fatalf, Printf, panic, formatStats; [|emits_auto].
    destruct (_ <=? _)%nat; [emits_auto|].
    apply emits_only_bind.
    { apply emits_only_for_range. intros. apply top_body_emits. }
    intros files. apply emits_only_bind; [by apply getStatsFromFiles_emits|].
    intros stats. emits_auto.
Qed.

(** With [-top] given, [main] is [top] and then [os.Exit(0)]. *)
Lemma main_top st :
  topFlag f ≠ 0 →
  main w f Less st = (top w f Less (topFlag f);; os_Exit 0) st.
Proof.
  intros Htop. unfold main. by rewrite (proj2 (Z.eqb_neq _ _) Htop).
Qed.
End TopMode.

(** ** The default mode *)

Section DefaultMode.
Context (w : World) (f : Flags) (Less : PcStatus → PcStatus → bool).

Lemma main_files_args st files st1 :
  main_files w f st = Ret files st1 → ∃ maps, files = Args f ++ maps.
Proof.
  unfold main_files. destruct (negb _).
  - unfold pcstat_SwitchMountNs, emit, modify, mbind, M_bind, mret, M_ret.
    cbn -[getPidLds].
    destruct (getPidLds w _ _) as [maps st'|]; [|done].
    intros [= <- <-]. by exists maps.
  - intros [= <- <-]. exists []. by rewrite app_nil_r.
Qed.

(** The run when [-top] is not given and there is a file to look at. *)
Lemma default_mode_run rnd files st1 :
  topFlag f = 0 →
  main_files w f (start rnd) = Ret files st1 →
  files ≠ [] →
  run w f Less rnd =
  Ret () (mkSt (ns st1) (seed st1)
            (trace st1 ++ census_log w (ns st1) files ++
             [EFormat (rendering f)
                (sort_Sort w Less (census_records w f (ns st1) files))])).
Proof.
  intros Htop Hfiles Hne. unfold run, main. rewrite Htop. cbn [Z.eqb negb].
  unfold mbind at 1, M_bind at 1. rewrite Hfiles.
  destruct files as [|x r]; [done|]. cbn [length Nat.eqb].
  unfold mbind, M_bind.
  destruct (getStatsFromFiles_spec w f (x :: r) st1)
    as (s & -> & Hels & Hcap & Hlen & _).
  destruct (elems_in_place (sort_Sort w Less) s) as (Hsorted & _).
  { rewrite Hcap, Hlen. apply census_records_length. }
  { apply sort_Sort_length. }
  unfold formatStats, emit. cbn [ns seed trace].
  by rewrite Hsorted, Hels, <- app_assoc.
Qed.
End DefaultMode.

Lemma host_map_order_ok procs : map_order_ok (Demo.host procs).
Proof.
  intros seed m. simpl. unfold Demo.order.
  destruct (Nat.even seed); [done|apply reverse_Permutation].
Qed.

Lemma census_lengths w f n files :
  (length (census_records w f n files) + length (census_log w n files))%nat
  = length files.
Proof.
  induction files as [|x r IH]; [done|].
  rewrite census_records_cons, census_log_cons.
  unfold census_record, census_failure.
  destruct (GetPcStatus w n x); simpl; lia.
Qed.

(** * The claims *)

(** C1 (the code departs from the claim). In top-N mode a request for more
    records than the census holds is not clamped: [stats[:top]] is bounded by
    the capacity of the array, one slot per unique path. On the fleet, whose
    three unique paths yield two records, [-top 5] panics before anything is
    reported, and [-top 3] reports the two records followed by a zero-valued
    one. *)
Theorem top_beyond_records_not_clamped :
  census_records Demo.fleet (Demo.flags 0 5 false []) 0%nat
    ["/data/a"; "/data/b"; "/data/gone"] = [Demo.data_a; Demo.data_b]
  ∧ run Demo.fleet (Demo.flags 0 5 false []) Ranking.Less 0%nat =
      Stop (Panic "slice bounds out of range")
        (mkSt 0%nat 2%nat
           [EProcesses; ESwitchMountNs 10; ESwitchMountNs 12;
            ELog "skipping %q: %v"
              ["/data/gone"; "/data/gone: no such file or directory"]])
  ∧ formatted (trace (res_state
       (run Demo.fleet (Demo.flags 0 3 false []) Ranking.Less 0%nat))) =
      [[Demo.data_a; Demo.data_b; PcStatus_zero]].
Proof. split_and!; vm_compute; reflexivity. Qed.

(** C2 (the code departs from the claim). In default mode the records are
    ranked by [sort.Sort] like in top-N mode, so the output is not in argument
    order: for the arguments [/data/b /data/a], where [/data/a] is fully
    cached and [/data/b] half cached, the report lists [/data/a] first. *)
Theorem default_mode_reorders_arguments :
  census_records Demo.fleet (Demo.flags 0 0 false ["/data/b"; "/data/a"])
    0%nat ["/data/b"; "/data/a"] = [Demo.data_b; Demo.data_a]
  ∧ run Demo.fleet (Demo.flags 0 0 false ["/data/b"; "/data/a"])
      Ranking.Less 0%nat =
      Ret () (mkSt 0%nat 0%nat [EFormat FormatText [Demo.data_a; Demo.data_b]]).
Proof. split; vm_compute; reflexivity. Qed.

(** C3, as claimed, fails: when the descriptor directory of a process cannot
    be read because permission is denied, [getPidLds] logs and ends the run
    with status 1; the fleet census then reports nothing. *)
Lemma unreadable_dir_permission_denied_is_fatal :
  ReadDir Demo.locked 0%nat (fd_dir 13) =
    inr "open /proc/13/fd: permission denied"
  ∧ getPidLds Demo.locked 13 (start 0%nat) =
      Stop (Exit 1)
        (mkSt 0%nat 0%nat
           [ELog "could not open dir '%s': %v"
              ["/proc/13/fd"; "open /proc/13/fd: permission denied"]])
  ∧ run Demo.locked (Demo.flags 0 1 false []) Ranking.Less 0%nat =
      Stop (Exit 1)
        (mkSt 0%nat 1%nat
           [EProcesses; ESwitchMountNs 10; ESwitchMountNs 13;
            ELog "could not open dir '%s': %v"
              ["/proc/13/fd"; "open /proc/13/fd: permission denied"]]).
Proof. split_and!; vm_compute; reflexivity. Qed.

(** C3, amended. For a process other than the program itself whose descriptor
    directory cannot be read: if the error says "no such file or directory"
    (the process has exited), [getPidLds] logs the directory and the error
    and returns the empty list, so the caller goes on; for any other error
    (permission denied among them) it logs and ends the run with status 1. *)
Theorem getPidLds_unreadable_dir (w : World) (pid : Z) (st : St) (err : string) :
  pid ≠ Getpid w →
  ReadDir w (ns st) (fd_dir pid) = inr err →
  getPidLds w pid st =
  if Contains err no_such_file
  then Ret [] (mkSt (ns st) (seed st)
                 (trace st ++ [ELog "skipping %s: %v" [fd_dir pid; err]]))
  else Stop (Exit 1)
         (mkSt (ns st) (seed st)
            (trace st ++ [ELog "could not open dir '%s': %v" [fd_dir pid; err]])).
Proof.
  intros Hpid Hread. rewrite getPidLds_unfold, Hread by done.
  by destruct (Contains err no_such_file).
Qed.

Lemma getPidLds_unreadable_dir_witness :
  getPidLds Demo.vanished 14 (start 0%nat) =
    Ret [] (mkSt 0%nat 0%nat
              [ELog "skipping %s: %v"
                 ["/proc/14/fd"; "open /proc/14/fd: no such file or directory"]])
  ∧ run Demo.vanished (Demo.flags 0 1 false []) Ranking.Less 0%nat =
      Stop (Exit 0)
        (mkSt 0%nat 2%nat
           [EProcesses; ESwitchMountNs 10; ESwitchMountNs 14;
            ELog "skipping %s: %v"
              ["/proc/14/fd"; "open /proc/14/fd: no such file or directory"];
            ESwitchMountNs 12;
            ELog "skipping %q: %v"
              ["/data/gone"; "/data/gone: no such file or directory"];
            EFormat FormatText [Demo.data_a]]).
Proof.
  split.
  - apply (getPidLds_unreadable_dir Demo.vanished 14 (start 0%nat)
             "open /proc/14/fd: no such file or directory").
    + vm_compute. discriminate.
    + vm_compute. reflexivity.
  - vm_compute. reflexivity.
Defined.

(** C4, as claimed, fails: the path list a process contributes is read off a
    Go map, whose iteration order the runtime draws at random. On the same
    host, with the same process and descriptor order, two runs return the
    paths of process 10 in different orders, and two runs of [-top 2 -bname]
    report the two records of equal rank in different orders. *)
Lemma path_list_order_differs_between_runs :
  getPidLds Demo.fleet 10 (start 0%nat) =
    Ret ["/data/a"; "/data/b"] (mkSt 0%nat 1%nat [])
  ∧ getPidLds Demo.fleet 10 (start 1%nat) =
    Ret ["/data/b"; "/data/a"] (mkSt 0%nat 2%nat [])
  ∧ formatted (trace (res_state
       (run Demo.twins (Demo.flags 0 2 true []) Ranking.Less 0%nat))) =
      [[with_Name Demo.other_a "a"; with_Name Demo.data_a "a"]]
  ∧ formatted (trace (res_state
       (run Demo.twins (Demo.flags 0 2 true []) Ranking.Less 1%nat))) =
      [[with_Name Demo.data_a "a"; with_Name Demo.other_a "a"]].
Proof. split_and!; vm_compute; reflexivity. Qed.

(** C4, amended. For a fixed file-system view and descriptor order, two runs
    of [getPidLds] on a process that start from different states of the
    runtime's random source end the same way, with the same log, and return
    the same paths, each once; only the order of the paths may differ. The
    final output order is thus a function of the process traversal order, the
    descriptor order, the ranking rule and the map iteration order. *)
Theorem getPidLds_same_up_to_order (w : World) (pid : Z) (st : St)
    (s1 s2 : nat) :
  map_order_ok w →
  same_up_to_order (getPidLds w pid (reseed s1 st))
                   (getPidLds w pid (reseed s2 st)).
Proof.
  intros Hok. unfold map_order_ok in Hok.
  destruct (decide (pid = Getpid w)) as [->|Hpid].
  { rewrite !getPidLds_self. simpl. split_and!; try done; constructor. }
  rewrite !getPidLds_unfold by done. cbn [reseed ns].
  destruct (ReadDir w (ns st) (fd_dir pid)) as [entries|err].
  - pose proof (seed_free_for_range entries (getPidLds_body w pid) ∅
                  (getPidLds_body_seed_free w pid)) as Hfree.
    unfold reseed in Hfree. rewrite !Hfree.
    destruct (for_range entries (getPidLds_body w pid) ∅ st) as [maps st'|h st'];
      simpl; [|done].
    split_and!; try done.
    + by rewrite !Hok.
    + rewrite Hok. apply NoDup_fst_map_to_list.
    + rewrite Hok. apply NoDup_fst_map_to_list.
  - destruct (negb (Contains err no_such_file)); simpl;
      split_and!; try done; constructor.
Qed.

Lemma getPidLds_same_up_to_order_witness :
  same_up_to_order (getPidLds Demo.fleet 10 (reseed 0 (start 0%nat)))
                   (getPidLds Demo.fleet 10 (reseed 1 (start 0%nat))).
Proof.
  apply (getPidLds_same_up_to_order Demo.fleet 10 (start 0%nat) 0 1).
  apply host_map_order_ok.
Defined.

(** C5. For every sequence of paths, [uniqueSlice] leaves each distinct path
    exactly once, in the order of the first occurrences: the result has no
    repeats, holds the same paths as the input, and of two paths in it the
    one that comes first is the one whose first occurrence in the input comes
    first. On [a, b, a, c, b] the result is [a, b, c]. *)
Theorem uniqueSlice_first_occurrence_order (l : list string) :
  uniqueSlice l = first_occurrences l
  ∧ NoDup (uniqueSlice l)
  ∧ (∀ x, x ∈ uniqueSlice l ↔ x ∈ l)
  ∧ (∀ i j x y, (i < j)%nat →
       uniqueSlice l !! i = Some x → uniqueSlice l !! j = Some y →
       ∃ p q, first_at l p x ∧ first_at l q y ∧ (p < q)%nat)
  ∧ uniqueSlice ["a"; "b"; "a"; "c"; "b"] = ["a"; "b"; "c"].
Proof.
  rewrite uniqueSlice_first_occurrences. split_and!.
  - done.
  - apply first_occurrences_NoDup.
  - apply first_occurrences_elem.
  - apply first_occurrences_order.
  - vm_compute. reflexivity.
Qed.

(** C6. For every sequence of paths, [getStatsFromFiles] completes the batch:
    it returns one record per path whose residency query succeeds, in input
    order, and logs one line with the path and the reason per path whose query
    fails, in input order; every path gives either a record or a log line. *)
Theorem getStatsFromFiles_partial_failure (w : World) (f : Flags)
    (files : list string) (st : St) :
  ∃ stats,
    getStatsFromFiles w f files st =
      Ret stats (mkSt (ns st) (seed st)
                   (trace st ++ census_log w (ns st) files))
    ∧ elems stats = census_records w f (ns st) files
    ∧ (length (elems stats) + length (census_log w (ns st) files))%nat
      = length files.
Proof.
  destruct (getStatsFromFiles_spec w f files st) as (s & Hrun & Hels & _).
  exists s. split_and!; [done|done|]. rewrite Hels. apply census_lengths.
Qed.

(** C6, the example of the specification: of three paths whose second cannot
    be queried, the first and the third are reported, and the second is
    logged. *)
Example census_skips_the_failing_path :
  ∃ stats,
    getStatsFromFiles Demo.fleet (Demo.flags 0 0 false [])
      ["/data/a"; "/data/gone"; "/data/b"] (start 0%nat) =
      Ret stats (mkSt 0%nat 0%nat
                   [ELog "skipping %q: %v"
                      ["/data/gone"; "/data/gone: no such file or directory"]])
    ∧ elems stats = [Demo.data_a; Demo.data_b].
Proof. eexists. split; vm_compute; reflexivity. Qed.

(** C7 (the code departs from the claim). The gate of [main] lets every
    non-zero [-top] value through, a negative one too: on the fleet,
    [-top -1] asks for the process table, scans the processes, queries the
    files and then panics at [stats[:top]], where the claim says that top-N
    mode is not entered. *)
Lemma negative_top_enters_top_mode :
  topFlag (Demo.flags 0 (-1) false []) < 0
  ∧ run Demo.fleet (Demo.flags 0 (-1) false []) Ranking.Less 0%nat =
      Stop (Panic "slice bounds out of range")
        (mkSt 0%nat 2%nat
           [EProcesses; ESwitchMountNs 10; ESwitchMountNs 12;
            ELog "skipping %q: %v"
              ["/data/gone"; "/data/gone: no such file or directory"]]).
Proof. split; vm_compute; reflexivity. Qed.

(** The process table is asked for exactly when the [-top] value is not
    zero. *)
Theorem census_runs_iff_top_nonzero (w : World) (f : Flags)
    (Less : PcStatus → PcStatus → bool) (rnd : nat) :
  EProcesses ∈ trace (res_state (run w f Less rnd)) ↔ topFlag f ≠ 0.
Proof.
  unfold run. split.
  - intros Hin Htop.
    destruct (default_mode_emits w f Less (λ e, e ≠ EProcesses))
      with (st := start rnd) as (t & Ht & HP); try done.
    rewrite Ht in Hin. simpl in Hin.
    rewrite Forall_forall in HP. by apply (HP EProcesses).
  - intros Htop. rewrite main_top by done.
    destruct (starts_with_bind (B:=unit) EProcesses
                (top w f Less (topFlag f)) (λ _, os_Exit 0)
                (top_starts w f Less _)) with (st := start rnd)
      as (t & Ht).
    { intros _. apply emits_only_halt. }
    rewrite Ht. simpl. by left.
Qed.

(** C8. Every path [getPidLds] returns is absolute and lies neither at nor
    below [/dev] or [/proc], whatever the descriptors of the process resolve
    to. *)
Theorem getPidLds_returns_FileTargets (w : World) (pid : Z) (st st' : St)
    (paths : list string) :
  map_order_ok w →
  getPidLds w pid st = Ret paths st' →
  Forall FileTarget paths.
Proof.
  intros Hok. unfold map_order_ok in Hok.
  destruct (decide (pid = Getpid w)) as [->|Hpid].
  { rewrite getPidLds_self. intros [= <- <-]. constructor. }
  rewrite getPidLds_unfold by done.
  destruct (ReadDir w (ns st) (fd_dir pid)) as [entries|err].
  - destruct (for_range entries (getPidLds_body w pid) ∅ st)
      as [maps st1|] eqn:Hloop; [|done].
    unfold range_keys, gets, modify, mbind, M_bind, mret, M_ret.
    intros [= <- <-]. apply Forall_forall. intros p Hp.
    apply kept_FileTarget. eapply getPidLds_loop_kept; [done|].
    rewrite (Hok (seed st1) maps) in Hp.
    apply list_elem_of_fmap in Hp as ([k v] & -> & Hkv).
    apply elem_of_map_to_list in Hkv. by exists v.
  - destruct (negb (Contains err no_such_file)); [done|].
    unfold Printf, emit, mbind, M_bind, mret, M_ret. intros [= <- <-].
    constructor.
Qed.

Lemma getPidLds_returns_FileTargets_witness :
  Forall FileTarget ["/data/a"; "/data/b"].
Proof.
  apply (getPidLds_returns_FileTargets Demo.fleet 10 (start 0%nat)
           (mkSt 0%nat 1%nat [])).
  - apply host_map_order_ok.
  - vm_compute. reflexivity.
Defined.

(** C9. When [-top] is given (its value is not zero), the [-pid] value and
    the file arguments play no part: the run is the same whatever they are,
    it is the fleet census followed by [os.Exit(0)], and it ends before the
    lines of [main] that read them are reached. *)
Theorem top_mode_ignores_pid_and_args (w : World) (f : Flags)
    (Less : PcStatus → PcStatus → bool) (rnd : nat) (pid : Z)
    (args : list string) :
  topFlag f ≠ 0 →
  run w (with_pid_args f pid args) Less rnd = run w f Less rnd
  ∧ run w f Less rnd = (top w f Less (topFlag f);; os_Exit 0) (start rnd)
  ∧ ∃ h st, run w f Less rnd = Stop h st.
Proof.
  intros Htop. unfold run. split_and!.
  - rewrite !main_top by done. reflexivity.
  - by apply main_top.
  - rewrite main_top by done. unfold mbind, M_bind.
    destruct (top w f Less (topFlag f) (start rnd)) as [[] st|h st]; by eauto.
Qed.

Lemma top_mode_ignores_pid_and_args_witness :
  run Demo.fleet
    (with_pid_args (Demo.flags 0 1 false []) 12 ["/data/b"; "/logs/a"])
    Ranking.Less 0%nat
  = run Demo.fleet (Demo.flags 0 1 false []) Ranking.Less 0%nat.
Proof.
  apply (top_mode_ignores_pid_and_args Demo.fleet (Demo.flags 0 1 false [])
           Ranking.Less 0%nat 12 ["/data/b"; "/logs/a"]).
  vm_compute. discriminate.
Defined.

(** C10. In default mode, with or without [-pid], the combined list of
    arguments and open files is not deduplicated: the report holds one record
    for each occurrence of a path whose residency query succeeds; it is a
    rearrangement of the records of the occurrences. *)
Theorem default_mode_keeps_repeats (w : World) (f : Flags)
    (Less : PcStatus → PcStatus → bool) (rnd : nat) (files : list string)
    (st1 : St) :
  topFlag f = 0 →
  main_files w f (start rnd) = Ret files st1 →
  files ≠ [] →
  ∃ out,
    run w f Less rnd =
      Ret () (mkSt (ns st1) (seed st1)
                (trace st1 ++ census_log w (ns st1) files ++
                 [EFormat (rendering f) out]))
    ∧ out ≡ₚ census_records w f (ns st1) files
    ∧ ∃ maps, files = Args f ++ maps.
Proof.
  intros Htop Hfiles Hne.
  exists (sort_Sort w Less (census_records w f (ns st1) files)). split_and!.
  - by apply default_mode_run.
  - apply sort_Sort_perm.
  - by eapply main_files_args.
Qed.

Lemma default_mode_keeps_repeats_witness :
  ∃ out,
    run Demo.fleet (Demo.flags 10 0 false ["/data/a"; "/data/a"])
      Ranking.Less 0%nat =
      Ret () (mkSt 0%nat 1%nat [ESwitchMountNs 10; EFormat FormatText out])
    ∧ out ≡ₚ [Demo.data_a; Demo.data_a; Demo.data_a; Demo.data_b]
    ∧ ∃ maps, ["/data/a"; "/data/a"; "/data/a"; "/data/b"]
              = ["/data/a"; "/data/a"] ++ maps.
Proof.
  apply (default_mode_keeps_repeats Demo.fleet
           (Demo.flags 10 0 false ["/data/a"; "/data/a"]) Ranking.Less 0%nat
           ["/data/a"; "/data/a"; "/data/a"; "/data/b"]
           (mkSt 0%nat 1%nat [ESwitchMountNs 10])).
  - reflexivity.
  - vm_compute. reflexivity.
  - discriminate.
Defined.

(** * Further properties *)

(** ** [uniqueSlice] *)

Section DedupMore.
Implicit Types (l : list string) (x y : string).

Lemma filter_all_kept (P : string → Prop) `{!∀ y, Decision (P y)} l :
  Forall P l → filter P l = l.
Proof.
  induction 1 as [|y r Hy _ IH]; [done|].
  by rewrite filter_cons_True, IH.
Qed.

Lemma first_occurrences_NoDup_id l : NoDup l → first_occurrences l = l.
Proof.
  induction 1 as [|x r Hx _ IH]; [done|]. simpl. rewrite IH. f_equal.
  apply filter_all_kept, Forall_forall. intros y Hy ->. done.
Qed.

Lemma first_occurrences_app l1 l2 :
  first_occurrences (l1 ++ l2) =
  first_occurrences l1 ++ filter (λ y, y ∉ l1) (first_occurrences l2).
Proof.
  induction l1 as [|a l1 IH]; simpl.
  - symmetry. apply filter_all_kept, Forall_forall. intros y _.
    apply not_elem_of_nil.
  - rewrite IH, filter_app, list_filter_filter. do 2 f_equal.
    apply list_filter_iff. intros y. rewrite not_elem_of_cons. tauto.
Qed.

(** The loop of [uniqueSlice] writes below [total] only. *)
Lemma uniqueSlice_step_tail l st i :
  drop (u_total st) (u_slice st) = drop (u_total st) l →
  length (u_slice st) = length l →
  let st' := uniqueSlice_step st i in
  drop (u_total st') (u_slice st') = drop (u_total st') l
  ∧ length (u_slice st') = length l.
Proof.
  intros Hdrop Hlen. unfold uniqueSlice_step.
  destruct (u_slice st !! i) as [val|]; [|done].
  destruct (u_found st !! val); [done|]. simpl. split.
  - rewrite drop_insert_lt by lia.
    replace (S (u_total st)) with (u_total st + 1)%nat by lia.
    by rewrite <- !drop_drop, Hdrop.
  - by rewrite length_insert.
Qed.

Lemma uniqueSlice_fold_tail l idxs st :
  drop (u_total st) (u_slice st) = drop (u_total st) l →
  length (u_slice st) = length l →
  let st' := foldl uniqueSlice_step st idxs in
  drop (u_total st') (u_slice st') = drop (u_total st') l
  ∧ length (u_slice st') = length l.
Proof.
  revert st. induction idxs as [|i idxs IH]; intros st Hdrop Hlen; [done|].
  simpl. destruct (uniqueSlice_step_tail l st i Hdrop Hlen) as [H1 H2].
  by apply IH.
Qed.
End DedupMore.

(** X1. A slice without repeats comes back from [uniqueSlice] as it was. *)
Theorem uniqueSlice_without_repeats (l : list string) :
  NoDup l → uniqueSlice l = l.
Proof.
  intros Hl. rewrite uniqueSlice_first_occurrences.
  by apply first_occurrences_NoDup_id.
Qed.

Lemma uniqueSlice_without_repeats_witness :
  uniqueSlice ["/data/b"; "/data/a"] = ["/data/b"; "/data/a"].
Proof.
  apply (uniqueSlice_without_repeats ["/data/b"; "/data/a"]).
  apply (bool_decide_unpack _). vm_compute. exact I.
Defined.

(** X2. Running [uniqueSlice] on its own result changes nothing. *)
Theorem uniqueSlice_idempotent (l : list string) :
  uniqueSlice (uniqueSlice l) = uniqueSlice l.
Proof.
  rewrite !uniqueSlice_first_occurrences.
  apply first_occurrences_NoDup_id, first_occurrences_NoDup.
Qed.

(** X3. On the paths of one process followed by those of another,
    [uniqueSlice] gives the result for the first, followed by the paths of
    the result for the second that the first did not hold: what came first
    keeps its place. *)
Theorem uniqueSlice_app (l1 l2 : list string) :
  uniqueSlice (l1 ++ l2) =
  uniqueSlice l1 ++ filter (λ y, y ∉ l1) (uniqueSlice l2).
Proof.
  rewrite !uniqueSlice_first_occurrences. apply first_occurrences_app.
Qed.

(** X4. [uniqueSlice] works in the caller's array: when its loop ends the
    array has its old length, [total] is the length of the result, and every
    slot from [total] on still holds what it held at the start. *)
Theorem uniqueSlice_array_tail (l : list string) :
  let st := uniqueSlice_loop l in
  length (u_slice st) = length l
  ∧ u_total st = length (uniqueSlice l)
  ∧ (u_total st ≤ length l)%nat
  ∧ drop (u_total st) (u_slice st) = drop (u_total st) l.
Proof.
  unfold uniqueSlice_loop.
  destruct (uniqueSlice_fold_tail l (seq 0 (length l)) (mkUnique l ∅ 0))
    as [Hdrop Hlen]; [done|done|].
  destruct (uniqueSlice_loop_inv l (length l) _ ltac:(done) eq_refl)
    as (_ & Htot & Hle & _).
  cbv zeta. split_and!; [done| |done|done].
  rewrite uniqueSlice_first_occurrences, Htot. by rewrite firstn_all.
Qed.

(** ** [getStatsFromFiles] *)

Section CensusMore.
Context (w : World) (f : Flags).

(** The slice [getStatsFromFiles] returns, slot by slot. *)
Lemma getStatsFromFiles_exact files st :
  getStatsFromFiles w f files st =
  Ret (mkSlice
         (census_records w f (ns st) files ++
          replicate (length files - length (census_records w f (ns st) files))
            PcStatus_zero)
         (length (census_records w f (ns st) files)))
      (mkSt (ns st) (seed st) (trace st ++ census_log w (ns st) files)).
Proof.
  destruct (getStatsFromFiles_spec w f files st)
    as ([arr n] & -> & Hels & Hcap & Hlen & Hdrop).
  unfold elems in Hels. simpl in *. subst n. do 2 f_equal.
  by rewrite <- (take_drop (length (census_records w f (ns st) files)) arr),
    Hels, Hdrop.
Qed.

Lemma census_records_all_fail n files :
  Forall (λ p, census_record w f n p = None) files →
  census_records w f n files = [].
Proof.
  induction 1 as [|p r Hp _ IH]; [done|].
  by rewrite census_records_cons, Hp.
Qed.

Lemma census_log_all_fail n files :
  Forall (λ p, census_record w f n p = None) files →
  length (census_log w n files) = length files.
Proof.
  intros Hall. pose proof (census_lengths w f n files) as Hlen.
  rewrite (census_records_all_fail _ _ Hall) in Hlen. done.
Qed.
End CensusMore.

Lemma census_records_unnamed w f f' n files :
  (λ r, with_Name r "") <$> census_records w f n files =
  (λ r, with_Name r "") <$> census_records w f' n files.
Proof.
  induction files as [|p r IH]; [done|]. rewrite !census_records_cons.
  unfold census_record. destruct (GetPcStatus w n p) as [status|]; [|done].
  rewrite !fmap_cons, IH. f_equal.
  by destruct (bnameFlag f), (bnameFlag f').
Qed.

(** X5. The slice [getStatsFromFiles] returns has one slot per path: the
    records of the paths that could be queried fill the first slots, the
    length stops there, and each remaining slot of the capacity holds the zero
    value. *)
Theorem getStatsFromFiles_array (w : World) (f : Flags) (files : list string)
    (st : St) :
  ∃ stats st',
    getStatsFromFiles w f files st = Ret stats st'
    ∧ backing stats =
        census_records w f (ns st) files ++
        replicate (length files - slen stats) PcStatus_zero
    ∧ slen stats = length (census_records w f (ns st) files)
    ∧ cap stats = length files
    ∧ (slen stats ≤ cap stats)%nat.
Proof.
  pose proof (census_records_length w f (ns st) files) as Hle.
  eexists _, _. split; [apply getStatsFromFiles_exact|].
  unfold cap. simpl. rewrite length_app, length_replicate.
  split_and!; try done; lia.
Qed.

(** X6. [getStatsFromFiles] never makes [append] reallocate: its outcome is
    the same whatever the runtime would do on reallocation. *)
Theorem getStatsFromFiles_never_reallocates (w : World) (f : Flags)
    (g : nat → nat) (files : list string) (st : St) :
  getStatsFromFiles (with_grow w g) f files st = getStatsFromFiles w f files st.
Proof. by rewrite !getStatsFromFiles_exact. Qed.

(** X7. The [-bname] flag renames the records and does nothing else: for any
    two settings of the flags, [getStatsFromFiles] ends in the same state,
    with the same log, and returns records that agree in everything but
    the name. *)
Theorem bname_only_renames (w : World) (f f' : Flags) (files : list string)
    (st : St) :
  ∃ stats stats' st',
    getStatsFromFiles w f files st = Ret stats st'
    ∧ getStatsFromFiles w f' files st = Ret stats' st'
    ∧ (λ r, with_Name r "") <$> elems stats =
      (λ r, with_Name r "") <$> elems stats'.
Proof.
  eexists _, _, _. split_and!; [apply getStatsFromFiles_exact..|].
  unfold elems. simpl. rewrite !take_app_length.
  apply census_records_unnamed.
Qed.

(** X8. When no path can be queried the default mode still reports: every
    path is logged, the renderer is handed the empty list, and [main]
    returns. *)
Theorem default_mode_all_queries_fail (w : World) (f : Flags)
    (Less : PcStatus → PcStatus → bool) (rnd : nat) (files : list string)
    (st1 : St) :
  topFlag f = 0 →
  main_files w f (start rnd) = Ret files st1 →
  files ≠ [] →
  Forall (λ p, census_record w f (ns st1) p = None) files →
  run w f Less rnd =
    Ret () (mkSt (ns st1) (seed st1)
              (trace st1 ++ census_log w (ns st1) files ++
               [EFormat (rendering f) []]))
  ∧ length (census_log w (ns st1) files) = length files.
Proof.
  intros Htop Hfiles Hne Hall. split.
  - rewrite (default_mode_run w f Less rnd files st1) by done.
    by rewrite (census_records_all_fail w f _ _ Hall).
  - by eapply census_log_all_fail.
Qed.

Lemma default_mode_all_queries_fail_witness :
  run Demo.fleet (Demo.flags 0 0 false ["/data/gone"]) Ranking.Less 0%nat =
    Ret () (mkSt 0%nat 0%nat
              [ELog "skipping %q: %v"
                 ["/data/gone"; "/data/gone: no such file or directory"];
               EFormat FormatText []]).
Proof.
  apply (default_mode_all_queries_fail Demo.fleet
           (Demo.flags 0 0 false ["/data/gone"]) Ranking.Less 0%nat
           ["/data/gone"] (start 0%nat)).
  - reflexivity.
  - reflexivity.
  - discriminate.
  - repeat constructor.
Defined.

(** ** [path.Base] *)

Section BaseFacts.

Lemma last_element_no_slash l : slash ∉ last_element l.
Proof.
  induction l as [|c r IH]; simpl; [apply not_elem_of_nil|].
  destruct (Ascii.eqb c slash) eqn:Hc; [apply not_elem_of_nil|].
  apply not_elem_of_cons. split; [|done].
  intros <-. by rewrite Ascii.eqb_refl in Hc.
Qed.
End BaseFacts.

(** X9. The name [-bname] gives a record is never empty, and it holds no
    slash unless it is the root itself. *)
Theorem Base_nonempty_no_slash (p : string) :
  Base p ≠ ""
  ∧ (Base p = "/" ∨ slash ∉ list_ascii_of_string (Base p)).
Proof.
  unfold Base. destruct (String.eqb p "") eqn:Hp.
  { split; [done|]. right. vm_compute. by intros [H|H]%elem_of_cons;
      [|apply elem_of_nil in H]. }
  set (e := last_element _).
  destruct (String.eqb (string_of_list_ascii (reverse e)) "") eqn:He.
  { split; [done|by left]. }
  split; [by apply String.eqb_neq|]. right.
  rewrite list_ascii_of_string_of_list_ascii, elem_of_reverse.
  apply last_element_no_slash.
Qed.

(** ** [strings.HasPrefix] and [strings.Contains] *)

Section StringFacts.
Implicit Types (s p t sub : string).

Lemma Contains_unfold s sub :
  Contains s sub =
  HasPrefix s sub ||
  match s with
  | EmptyString => false
  | String _ s' => Contains s' sub
  end.
Proof. by destruct s. Qed.

Lemma HasPrefix_append p t : HasPrefix (p +:+ t) p = true.
Proof.
  induction p as [|c p IH]; [done|].
  change (String c p +:+ t) with (String c (p +:+ t)).
  cbn [HasPrefix]. by rewrite Ascii.eqb_refl.
Qed.
End StringFacts.

Lemma HasPrefix_split (s p : string) :
  HasPrefix s p = true → ∃ t, s = p +:+ t.
Proof.
  revert s. induction p as [|c p IH]; intros s; [by exists s|].
  destruct s as [|d s]; [done|]. cbn [HasPrefix].
  destruct (Ascii.eqb c d) eqn:Hcd; [|done].
  apply Ascii.eqb_eq in Hcd as ->. intros [t ->]%IH. by exists t.
Qed.

(** X10. [HasPrefix] holds exactly of the strings that are the prefix
    followed by something. *)
Theorem HasPrefix_iff (s p : string) :
  HasPrefix s p = true ↔ ∃ t, s = p +:+ t.
Proof.
  split; [apply HasPrefix_split|]. intros [t ->]. apply HasPrefix_append.
Qed.

(** X11. [Contains] holds exactly of the strings in which the substring
    occurs somewhere. *)
Theorem Contains_iff (s sub : string) :
  Contains s sub = true ↔ ∃ a b, s = a +:+ sub +:+ b.
Proof.
  split.
  - induction s as [|c s IH]; rewrite Contains_unfold, orb_true_iff.
    + intros [[t ->]%HasPrefix_split|?]; [|done]. by exists "", t.
    + intros [[t ->]%HasPrefix_split|(a & b & ->)%IH].
      * by exists "", t.
      * by exists (String c a), b.
  - intros (a & b & ->). induction a as [|c a IH].
    + change ("" +:+ sub +:+ b) with (sub +:+ b).
      rewrite Contains_unfold, orb_true_iff. left. apply HasPrefix_append.
    + change (String c a +:+ sub +:+ b) with (String c (a +:+ sub +:+ b)).
      rewrite Contains_unfold, orb_true_iff. by right.
Qed.

(** ** [getPidLds] *)

Section ResolverMore.
Context (w : World).

Lemma getPidLds_body_spec pid entry (maps : gmap string bool) st :
  getPidLds_body w pid entry maps st =
  Ret (match entry_target w (ns st) pid entry with
       | Some target => <[target := true]> maps
       | None => maps
       end)
      (mkSt (ns st) (seed st)
         (trace st ++
          match entry_log w (ns st) pid entry with
          | Some e => [e]
          | None => []
          end)).
Proof.
  unfold getPidLds_body, entry_target, entry_log, os_Lstat,
    filepath_EvalSymlinks, Printf, emit, gets, mbind, M_bind, mret, M_ret.
  fold (fd_link pid entry).
  assert (Ret maps st =
          Ret maps (mkSt (ns st) (seed st) (trace st ++ []))) as Hsame.
  { destruct st. simpl. by rewrite app_nil_r. }
  destruct (IsDir entry); cbn [negb]; [done|].
  destruct (Lstat w (ns st) (fd_link pid entry)) as [fi|err]; [|done].
  destruct (Z.land (Mode fi) ModeSymlink =? 0); cbn [negb]; [done|].
  destruct (EvalSymlinks w (ns st) (fd_link pid entry)) as [target|err].
  - destruct (kept target); [|done]. destruct st. simpl. by rewrite app_nil_r.
  - destruct (Contains err no_such_file); cbn [negb]; done.
Qed.

Lemma entry_target_kept n pid entry target :
  entry_target w n pid entry = Some target → kept target = true.
Proof.
  unfold entry_target. destruct (IsDir entry); [done|].
  destruct (Lstat w n _) as [fi|]; [|done].
  destruct (Z.land (Mode fi) ModeSymlink =? 0); [done|].
  destruct (EvalSymlinks w n _) as [t|]; [|done].
  destruct (kept t) eqn:Hk; [|done]. by intros [= <-].
Qed.

(** The loop of [getPidLds] over the entries never ends the run. *)
Lemma getPidLds_loop_spec pid entries (maps : gmap string bool) st :
  ∃ maps' : gmap string bool,
    for_range entries (getPidLds_body w pid) maps st =
      Ret maps' (mkSt (ns st) (seed st)
                   (trace st ++ resolver_log w (ns st) pid entries))
    ∧ ∀ k, is_Some (maps' !! k) ↔
           is_Some (maps !! k) ∨ k ∈ resolved_targets w (ns st) pid entries.
Proof.
  revert maps st. induction entries as [|entry r IH]; intros maps st.
  - exists maps. simpl. rewrite app_nil_r. destruct st. split; [done|].
    intros k. rewrite elem_of_nil. tauto.
  - rewrite for_range_cons, getPidLds_body_spec.
    edestruct IH as (maps' & -> & Hmem). exists maps'. cbn [ns seed trace].
    unfold resolver_log, resolved_targets in *. cbn [omap list_omap].
    split.
    + rewrite <- app_assoc. by destruct (entry_log w (ns st) pid entry).
    + intros k. rewrite Hmem. clear Hmem.
      destruct (entry_target w (ns st) pid entry) as [target|].
      * rewrite lookup_insert_is_Some, elem_of_cons.
        destruct (decide (target = k)) as [->|Hk]; intuition congruence.
      * done.
Qed.

(** The paths [getPidLds] returns when the directory can be read. *)
Lemma getPidLds_paths pid entries st paths st' :
  map_order_ok w →
  pid ≠ Getpid w →
  ReadDir w (ns st) (fd_dir pid) = inl entries →
  getPidLds w pid st = Ret paths st' →
  NoDup paths
  ∧ ∀ p, p ∈ paths ↔ p ∈ resolved_targets w (ns st) pid entries.
Proof.
  intros Hok Hpid Hread. unfold map_order_ok in Hok.
  rewrite getPidLds_unfold, Hread by done.
  destruct (getPidLds_loop_spec pid entries ∅ st) as (maps & -> & Hmem).
  unfold range_keys, gets, modify, mbind, M_bind, mret, M_ret.
  intros [= <- <-]. cbn [seed]. split.
  - rewrite Hok. apply NoDup_fst_map_to_list.
  - intros p. rewrite Hok, list_elem_of_fmap. split.
    + intros ([k v] & -> & Hkv%elem_of_map_to_list).
      destruct (proj1 (Hmem k)) as [Hk|Hk]; [by exists v| |done].
      rewrite lookup_empty in Hk. by destruct Hk.
    + intros Hp. destruct (proj2 (Hmem p)) as [v Hv]; [by right|].
      exists (p, v). split; [done|]. by apply elem_of_map_to_list.
Qed.

Lemma resolved_targets_kept n pid entries p :
  p ∈ resolved_targets w n pid entries → kept p = true.
Proof.
  unfold resolved_targets. rewrite list_elem_of_omap.
  intros (entry & _ & H). by eapply entry_target_kept.
Qed.
End ResolverMore.

(** X12. When the descriptor directory of another process can be read,
    [getPidLds] returns, whatever happens to the single descriptors: it
    leaves the namespace as it was, draws once from the random source, and
    adds to the log one line per entry that cannot be inspected and one per
    link that cannot be resolved for a reason other than a missing file, in
    the order of the entries. *)
Theorem getPidLds_readable_dir (w : World) (pid : Z) (st : St)
    (entries : list DirEntry) :
  pid ≠ Getpid w →
  ReadDir w (ns st) (fd_dir pid) = inl entries →
  ∃ paths,
    getPidLds w pid st =
      Ret paths (mkSt (ns st) (S (seed st))
                   (trace st ++ resolver_log w (ns st) pid entries)).
Proof.
  intros Hpid Hread. rewrite getPidLds_unfold, Hread by done.
  destruct (getPidLds_loop_spec w pid entries ∅ st) as (maps & -> & _).
  by eexists.
Qed.

Lemma getPidLds_readable_dir_witness :
  ∃ paths,
    getPidLds Demo.fleet 10 (start 0%nat) =
      Ret paths
        (mkSt 0%nat 1%nat
           ([] ++ resolver_log Demo.fleet 0%nat 10
                    [mkDirEntry "0" false; mkDirEntry "3" false;
                     mkDirEntry "4" false; mkDirEntry "5" false;
                     mkDirEntry "6" false])).
Proof.
  apply (getPidLds_readable_dir Demo.fleet 10 (start 0%nat)).
  - vm_compute. discriminate.
  - vm_compute. reflexivity.
Defined.

(** X13. When the descriptor directory can be read, the paths [getPidLds]
    returns are, each once, exactly the targets of the entries that are not
    directories, can be inspected, are symbolic links, resolve, and pass the
    test on the target. *)
Theorem getPidLds_exact_paths (w : World) (pid : Z) (st st' : St)
    (entries : list DirEntry) (paths : list string) :
  map_order_ok w →
  pid ≠ Getpid w →
  ReadDir w (ns st) (fd_dir pid) = inl entries →
  getPidLds w pid st = Ret paths st' →
  NoDup paths
  ∧ ∀ p, p ∈ paths ↔ p ∈ resolved_targets w (ns st) pid entries.
Proof. apply getPidLds_paths. Qed.

Lemma getPidLds_exact_paths_witness :
  NoDup ["/data/a"; "/data/b"]
  ∧ ∀ p, p ∈ ["/data/a"; "/data/b"] ↔
         p ∈ resolved_targets Demo.fleet 0%nat 10
               [mkDirEntry "0" false; mkDirEntry "3" false;
                mkDirEntry "4" false; mkDirEntry "5" false;
                mkDirEntry "6" false].
Proof.
  apply (getPidLds_exact_paths Demo.fleet 10 (start 0%nat)
           (mkSt 0%nat 1%nat [])).
  - apply host_map_order_ok.
  - vm_compute. discriminate.
  - vm_compute. reflexivity.
  - vm_compute. reflexivity.
Defined.

(** X14. The test on the target is on the text of the path: a target whose
    text begins with [/dev] or [/proc] is never returned, also when it does
    not lie below these directories, as [/devel/x] or [/process.log]. *)
Theorem getPidLds_excludes_by_text (w : World) (pid : Z) (st st' : St)
    (entries : list DirEntry) (paths : list string) (s : string) :
  map_order_ok w →
  pid ≠ Getpid w →
  ReadDir w (ns st) (fd_dir pid) = inl entries →
  getPidLds w pid st = Ret paths st' →
  (("/dev" +:+ s) ∉ paths) ∧ (("/proc" +:+ s) ∉ paths).
Proof.
  intros Hok Hpid Hread Hrun.
  destruct (getPidLds_paths w pid entries st paths st') as [_ Hmem]; try done.
  split; intros Hin%Hmem%resolved_targets_kept; discriminate Hin.
Qed.

Lemma getPidLds_excludes_by_text_witness :
  ("/devel/x" ∉ ["/data/a"; "/data/b"])
  ∧ ("/process.log" ∉ ["/data/a"; "/data/b"]).
Proof.
  split.
  - apply (getPidLds_excludes_by_text Demo.fleet 10 (start 0%nat)
             (mkSt 0%nat 1%nat [])
             [mkDirEntry "0" false; mkDirEntry "3" false;
              mkDirEntry "4" false; mkDirEntry "5" false;
              mkDirEntry "6" false] ["/data/a"; "/data/b"] "el/x").
    + apply host_map_order_ok.
    + vm_compute. discriminate.
    + vm_compute. reflexivity.
    + vm_compute. reflexivity.
  - apply (getPidLds_excludes_by_text Demo.fleet 10 (start 0%nat)
             (mkSt 0%nat 1%nat [])
             [mkDirEntry "0" false; mkDirEntry "3" false;
              mkDirEntry "4" false; mkDirEntry "5" false;
              mkDirEntry "6" false] ["/data/a"; "/data/b"] "ess.log").
    + apply host_map_order_ok.
    + vm_compute. discriminate.
    + vm_compute. reflexivity.
    + vm_compute. reflexivity.
Defined.

(** ** [top] *)

Lemma emits_only_for_range_in {A S} (P : Event → Prop) (xs : list A)
    (body : A → S → M S) (acc : S) :
  (∀ x acc, x ∈ xs → emits_only P (body x acc)) →
  emits_only P (for_range xs body acc).
Proof.
  revert acc. induction xs as [|x xs IH]; intros acc Hbody; simpl.
  - apply emits_only_ret.
  - apply emits_only_bind; [apply Hbody; by left|].
    intros a. apply IH. intros y acc' Hy. apply Hbody. by right.
Qed.

Section TopMore.
Context (w : World) (f : Flags) (Less : PcStatus → PcStatus → bool).

(** [top], once the process table has been asked for. *)
Lemma top_unfold n st :
  top w f Less n st =
  let st1 := mkSt (ns st) (seed st) (trace st ++ [EProcesses]) in
  match Processes w (ns st) with
  | inr err => Fatalf "err: %s" [err] st1
  | inl p =>
      if (length p <=? 0)%nat then Fatalf "Cannot find any process." [] st1
      else
        match for_range (scanned p) (top_body w) [] st1 with
        | Stop h st2 => Stop h st2
        | Ret files st2 =>
            match getStatsFromFiles w f (uniqueSlice files) st2 with
            | Stop h st3 => Stop h st3
            | Ret stats st3 =>
                match reslice (in_place (sort_Sort w Less) stats) n with
                | None => panic "slice bounds out of range" st3
                | Some topStats => formatStats f topStats st3
                end
            end
        end
  end.
Proof.
  unfold top, utils_Processes. unfold mbind at 1, M_bind at 1.
  change ((emit EProcesses;; gets (λ st0, Processes w (ns st0))) st)
    with (Ret (Processes w (ns st))
            (mkSt (ns st) (seed st) (trace st ++ [EProcesses]))).
  cbv zeta. destruct (Processes w (ns st)) as [p|err]; [|done].
  destruct (length p <=? 0)%nat; [done|].
  unfold mbind, M_bind, scanned.
  destruct (for_range _ _ _ _) as [files st2|]; [|done].
  destruct (getStatsFromFiles w f (uniqueSlice files) st2) as [stats st3|];
    [|done].
  by destruct (reslice _ n).
Qed.

Lemma top_body_switches (p : list Process) process files :
  process ∈ scanned p →
  emits_only
    (λ e, ∀ pid, e = ESwitchMountNs pid →
                 ∃ p1, p1 ∈ p ∧ Pid p1 = pid ∧ RSS p1 ≠ 0)
    (top_body w process files).
Proof.
  intros [Hrss Hin]%list_elem_of_filter.
  unfold top_body, pcstat_SwitchMountNs. emits_auto.
  - intros pid [= <-]. by exists process.
  - by apply getPidLds_emits.
Qed.

(** The slice [top] cuts, after ranking. *)
Lemma ranked_slice files st :
  let records := census_records w f (ns st) files in
  in_place (sort_Sort w Less)
    (mkSlice (records ++ replicate (length files - length records) PcStatus_zero)
       (length records)) =
  mkSlice (top_array w f Less (ns st) files) (length records).
Proof.
  cbv zeta. unfold in_place, elems, top_array. simpl.
  by rewrite take_app_length, drop_app_length.
Qed.

Lemma top_array_length n files :
  length (top_array w f Less n files) = length files.
Proof.
  unfold top_array. rewrite length_app, sort_Sort_length, length_replicate.
  pose proof (census_records_length w f n files). lia.
Qed.
End TopMore.

(** X15. When the process table cannot be read, or is empty, [top] logs the
    reason and ends the run with status 1, before any namespace is entered
    or anything is reported. *)
Theorem top_without_processes (w : World) (f : Flags)
    (Less : PcStatus → PcStatus → bool) (n : Z) (st : St) :
  match Processes w (ns st) with inl (_ :: _) => False | _ => True end →
  top w f Less n st =
  Stop (Exit 1)
    (mkSt (ns st) (seed st)
       (trace st ++
        [EProcesses;
         match Processes w (ns st) with
         | inr err => ELog "err: %s" [err]
         | inl _ => ELog "Cannot find any process." []
         end])).
Proof.
  rewrite top_unfold. cbv zeta.
  destruct (Processes w (ns st)) as [[|p1 p]|err]; [|done|]; intros _;
    unfold Fatalf, Printf, emit, halt, mbind, M_bind; cbn [ns seed trace length];
    by rewrite <- app_assoc.
Qed.

Lemma top_without_processes_witness :
  top (Demo.host []) (Demo.flags 0 3 false []) Ranking.Less 3 (start 0%nat) =
  Stop (Exit 1)
    (mkSt 0%nat 0%nat [EProcesses; ELog "Cannot find any process." []]).
Proof.
  apply (top_without_processes (Demo.host []) (Demo.flags 0 3 false [])
           Ranking.Less 3 (start 0%nat)).
  exact I.
Defined.

(** X16. [top] enters the mount namespace of processes that the process
    table lists with resident memory, and of no other. *)
Theorem top_switches_only_resident (w : World) (f : Flags)
    (Less : PcStatus → PcStatus → bool) (n : Z) (st : St)
    (p : list Process) (pid : Z) :
  Processes w (ns st) = inl p →
  ESwitchMountNs pid ∉ trace st →
  ESwitchMountNs pid ∈ trace (res_state (top w f Less n st)) →
  ∃ p1, p1 ∈ p ∧ Pid p1 = pid ∧ RSS p1 ≠ 0.
Proof.
  intros Hp Hnot. rewrite top_unfold, Hp. cbv zeta.
  set (P := λ e, ∀ pid, e = ESwitchMountNs pid →
                        ∃ p1, p1 ∈ p ∧ Pid p1 = pid ∧ RSS p1 ≠ 0).
  set (st1 := mkSt (ns st) (seed st) (trace st ++ [EProcesses])).
  assert (emits_only P
            (if (length p <=? 0)%nat
             then Fatalf "Cannot find any process." []
             else files ← for_range (scanned p) (top_body w) [];
                  stats ← getStatsFromFiles w f (uniqueSlice files);
                  match reslice (in_place (sort_Sort w Less) stats) n with
                  | None => panic "slice bounds out of range"
                  | Some topStats => formatStats f topStats
                  end)) as Hemits.
  { destruct (length p <=? 0)%nat.
    - unfold Fatalf, Printf. emits_auto.
    - apply emits_only_bind.
      { apply emits_only_for_range_in. intros. by apply top_body_switches. }
      intros files. apply emits_only_bind.
      { by apply getStatsFromFiles_emits. }
      intros stats. unfold panic, formatStats. emits_auto. }
  destruct (Hemits st1) as (t & Ht & HP).
  assert (trace (res_state
            (if (length p <=? 0)%nat
             then Fatalf "Cannot find any process." [] st1
             else
               match for_range (scanned p) (top_body w) [] st1 with
               | Ret files st2 =>
                   match getStatsFromFiles w f (uniqueSlice files) st2 with
                   | Ret stats st3 =>
                       match reslice (in_place (sort_Sort w Less) stats) n with
                       | Some topStats => formatStats f topStats st3
                       | None => panic "slice bounds out of range" st3
                       end
                   | Stop h st3 => Stop h st3
                   end
               | Stop h st2 => Stop h st2
               end)) = trace st1 ++ t) as ->.
  { rewrite <- Ht. destruct (length p <=? 0)%nat; [done|].
    unfold mbind, M_bind.
    destruct (for_range _ _ _ _) as [files st2|]; [|done].
    destruct (getStatsFromFiles w f (uniqueSlice files) st2); [|done].
    by destruct (reslice _ n). }
  subst st1. cbn [trace]. rewrite !elem_of_app, list_elem_of_singleton.
  intros [[?|?]|Hin]; [done|done|].
  rewrite Forall_forall in HP. by apply (HP _ Hin).
Qed.

Lemma top_switches_only_resident_witness :
  ∃ p1, p1 ∈ [mkProcess 10 5; mkProcess 11 0; mkProcess 12 7]
        ∧ Pid p1 = 12 ∧ RSS p1 ≠ 0.
Proof.
  apply (top_switches_only_resident Demo.fleet (Demo.flags 0 1 false [])
           Ranking.Less 1 (start 0%nat)).
  - reflexivity.
  - apply not_elem_of_nil.
  - vm_compute. do 2 right. left.
Defined.

(** X17. Once the processes are scanned, [top] reports exactly when the
    requested number lies between zero and the number of unique paths
    collected, and panics otherwise, after the census and its log. What it
    reports are the first [n] slots of the array: the records as [sort.Sort]
    leaves them, followed by one zero value for every path whose query
    failed; so within the number of records the report is the first [n]
    records of the ranking. *)
Theorem top_reports_or_panics (w : World) (f : Flags)
    (Less : PcStatus → PcStatus → bool) (n : Z) (st st2 : St)
    (p : list Process) (files : list string) :
  Processes w (ns st) = inl p →
  p ≠ [] →
  for_range (scanned p) (top_body w) []
    (mkSt (ns st) (seed st) (trace st ++ [EProcesses])) = Ret files st2 →
  let paths := uniqueSlice files in
  let logged := mkSt (ns st2) (seed st2)
                  (trace st2 ++ census_log w (ns st2) paths) in
  top w f Less n st =
    (if decide (0 ≤ n ≤ Z.of_nat (length paths))
     then Ret () (mkSt (ns st2) (seed st2)
                    (trace logged ++
                     [EFormat (rendering f)
                        (take (Z.to_nat n)
                           (top_array w f Less (ns st2) paths))]))
     else Stop (Panic "slice bounds out of range") logged)
  ∧ ((Z.to_nat n ≤ length (census_records w f (ns st2) paths))%nat →
     take (Z.to_nat n) (top_array w f Less (ns st2) paths) =
     take (Z.to_nat n) (sort_Sort w Less (census_records w f (ns st2) paths))).
Proof.
  intros Hp Hne Hloop paths logged. split.
  - rewrite top_unfold, Hp. cbv zeta. destruct p as [|p1 p]; [done|].
    cbn [length Nat.leb]. rewrite Hloop, getStatsFromFiles_exact.
    fold paths. rewrite ranked_slice. unfold reslice, cap. cbn [backing].
    rewrite top_array_length. fold paths.
    destruct (decide (0 ≤ n ≤ Z.of_nat (length paths))); [|done].
    unfold formatStats, emit, elems. cbn [backing slen ns seed trace]. done.
  - intros Hn. unfold top_array. by rewrite take_app_le by
      (by rewrite sort_Sort_length).
Qed.

Lemma top_reports_or_panics_witness :
  top Demo.fleet (Demo.flags 0 1 false []) Ranking.Less 1 (start 0%nat) =
    Ret () (mkSt 0%nat 2%nat
              [EProcesses; ESwitchMountNs 10; ESwitchMountNs 12;
               ELog "skipping %q: %v"
                 ["/data/gone"; "/data/gone: no such file or directory"];
               EFormat FormatText [Demo.data_a]]).
Proof.
  apply (top_reports_or_panics Demo.fleet (Demo.flags 0 1 false [])
           Ranking.Less 1 (start 0%nat)
           (mkSt 0%nat 2%nat [EProcesses; ESwitchMountNs 10; ESwitchMountNs 12])
           [mkProcess 10 5; mkProcess 11 0; mkProcess 12 7]
           ["/data/a"; "/data/b"; "/data/a"; "/data/gone"]).
  - reflexivity.
  - discriminate.
  - vm_compute. reflexivity.
Defined.

(** ** [main], [init] and [formatStats] *)

Section MainMore.
Context (w : World) (f : Flags) (Less : PcStatus → PcStatus → bool).

(** What [main] emits when [-top] is not given, with the only namespace it
    may enter. *)
Lemma default_mode_switch (P : Event → Prop) :
  (∀ format args, P (ELog format args)) →
  (pidFlag f ≠ 0 → P (ESwitchMountNs (pidFlag f))) →
  P EUsage →
  (∀ r stats, P (EFormat r stats)) →
  topFlag f = 0 →
  emits_only P (main w f Less).
Proof.
  intros Plog Pns Pusage Pformat Htop. unfold main. rewrite Htop.
  cbn [Z.eqb negb]. apply emits_only_bind.
  { unfold main_files, pcstat_SwitchMountNs.
    destruct (pidFlag f =? 0) eqn:Hpid; cbn [negb]; [emits_auto|].
    apply Z.eqb_neq in Hpid. emits_auto; [by apply Pns|].
    by apply getPidLds_emits. }
  intros files. destruct (_ =? _)%nat.
  - unfold os_Exit. emits_auto.
  - apply emits_only_bind; [by apply getStatsFromFiles_emits|].
    intros stats. unfold formatStats. emits_auto.
Qed.

Lemma main_files_no_pid st : pidFlag f = 0 → main_files w f st = Ret (Args f) st.
Proof. intros Hpid. unfold main_files. by rewrite Hpid. Qed.
End MainMore.

(** X18. Without [-top], a run enters a mount namespace only for [-pid], and
    then only that of the process given: never when [-pid] is zero. *)
Theorem default_mode_switches_only_to_pid (w : World) (f : Flags)
    (Less : PcStatus → PcStatus → bool) (rnd : nat) (pid : Z) :
  topFlag f = 0 →
  ESwitchMountNs pid ∈ trace (res_state (run w f Less rnd)) →
  pid = pidFlag f ∧ pidFlag f ≠ 0.
Proof.
  intros Htop Hin. unfold run in Hin.
  destruct (decide (pid = pidFlag f ∧ pidFlag f ≠ 0)) as [|Hno]; [done|].
  exfalso.
  destruct (default_mode_switch w f Less (λ e, e ≠ ESwitchMountNs pid))
    with (st := start rnd) as (t & Ht & HP); try done.
  - intros Hpid [= ?]. by apply Hno.
  - rewrite Ht in Hin. simpl in Hin. rewrite Forall_forall in HP.
    by apply (HP _ Hin).
Qed.

Lemma default_mode_switches_only_to_pid_witness :
  10 = pidFlag (Demo.flags 10 0 false ["/data/a"])
  ∧ pidFlag (Demo.flags 10 0 false ["/data/a"]) ≠ 0.
Proof.
  apply (default_mode_switches_only_to_pid Demo.fleet
           (Demo.flags 10 0 false ["/data/a"]) Ranking.Less 0%nat 10).
  - reflexivity.
  - vm_compute. left.
Defined.

(** X19. Without [-top], when there is no file to look at (no argument, and
    no open file of the [-pid] process), [main] prints the usage and exits
    with status 1: nothing is logged after the usage and nothing is
    reported. *)
Theorem no_files_prints_usage (w : World) (f : Flags)
    (Less : PcStatus → PcStatus → bool) (rnd : nat) (st1 : St) :
  topFlag f = 0 →
  main_files w f (start rnd) = Ret [] st1 →
  run w f Less rnd =
  Stop (Exit 1) (mkSt (ns st1) (seed st1) (trace st1 ++ [EUsage])).
Proof.
  intros Htop Hfiles. unfold run, main. rewrite Htop. cbn [Z.eqb negb].
  unfold mbind at 1, M_bind at 1. by rewrite Hfiles.
Qed.

Lemma no_files_prints_usage_witness :
  run Demo.vanished (Demo.flags 14 0 false []) Ranking.Less 0%nat =
  Stop (Exit 1)
    (mkSt 0%nat 0%nat
       [ESwitchMountNs 14;
        ELog "skipping %s: %v"
          ["/proc/14/fd"; "open /proc/14/fd: no such file or directory"];
        EUsage]).
Proof.
  apply (no_files_prints_usage Demo.vanished (Demo.flags 14 0 false [])
           Ranking.Less 0%nat
           (mkSt 0%nat 0%nat
              [ESwitchMountNs 14;
               ELog "skipping %s: %v"
                 ["/proc/14/fd";
                  "open /proc/14/fd: no such file or directory"]])).
  - reflexivity.
  - vm_compute. reflexivity.
Defined.

(** X20. With every flag at the default [init] gives it, a run on at least
    one argument returns: it stays in the caller's namespace, logs one line
    per argument that cannot be queried, and hands the records of the other
    arguments, under their full path names and as [sort.Sort] ranks them, to
    the plain text renderer. *)
Theorem run_with_default_flags (w : World)
    (Less : PcStatus → PcStatus → bool) (rnd : nat) (args : list string) :
  args ≠ [] →
  run w (init_flags args) Less rnd =
  Ret () (mkSt 0%nat rnd
            (census_log w 0%nat args ++
             [EFormat FormatText
                (sort_Sort w Less
                   (omap (λ p, match GetPcStatus w 0%nat p with
                               | inl status => Some status
                               | inr _ => None
                               end) args))])).
Proof.
  intros Hargs.
  by rewrite (default_mode_run w (init_flags args) Less rnd args (start rnd)).
Qed.

Lemma run_with_default_flags_witness :
  run Demo.fleet (init_flags ["/data/gone"; "/data/b"]) Ranking.Less 0%nat =
  Ret () (mkSt 0%nat 0%nat
            [ELog "skipping %q: %v"
               ["/data/gone"; "/data/gone: no such file or directory"];
             EFormat FormatText [Demo.data_b]]).
Proof.
  apply (run_with_default_flags Demo.fleet Ranking.Less 0%nat
           ["/data/gone"; "/data/b"]).
  discriminate.
Defined.

(** ** Ranking *)

Section RankedFacts.
Context {A : Type} (less : A → A → bool).
Context (asym : ∀ a b, less a b = true → less b a = false).
Context (negtrans : ∀ a b c,
           less a b = false → less b c = false → less a c = false).

Lemma move_left_sorted (x : A) rprefix :
  StronglySorted (λ a b, less a b = false) rprefix →
  StronglySorted (λ a b, less a b = false) (move_left less x rprefix).
Proof.
  induction 1 as [|y r Hr IH Hy]; simpl.
  - repeat constructor.
  - destruct (less x y) eqn:Hxy.
    + constructor; [done|].
      rewrite (move_left_perm less x r). constructor; [by apply asym|done].
    + constructor; [by constructor|]. constructor; [done|].
      eapply Forall_impl; [exact Hy|]. intros z Hz. by eapply negtrans.
Qed.

Lemma insertion_sorted (l acc : list A) :
  StronglySorted (λ a b, less a b = false) acc →
  StronglySorted (λ a b, less a b = false)
    (foldl (λ rprefix x, move_left less x rprefix) acc l).
Proof.
  revert acc. induction l as [|x l IH]; intros acc Hacc; [done|].
  simpl. by apply IH, move_left_sorted.
Qed.

Lemma reverse_ranked (rprefix : list A) :
  StronglySorted (λ a b, less a b = false) rprefix →
  ranked less (reverse rprefix).
Proof.
  unfold ranked. induction 1 as [|y r Hr IH Hy]; [constructor|].
  rewrite reverse_cons. apply StronglySorted_app. split_and!.
  - intros a b Ha ->%list_elem_of_singleton.
    rewrite Forall_forall in Hy. by apply Hy, elem_of_reverse.
  - done.
  - repeat constructor.
Qed.

Lemma insertionSort_ranked (l : list A) : ranked less (insertionSort less l).
Proof. apply reverse_ranked, insertion_sorted. constructor. Qed.
End RankedFacts.

Lemma sort_Sort_ranked w (less : PcStatus → PcStatus → bool) l :
  (∀ a b, less a b = true → less b a = false) →
  (∀ a b c, less a b = false → less b c = false → less a c = false) →
  ranked less (sort_Sort w less l).
Proof.
  intros asym negtrans. unfold sort_Sort.
  case_decide; [by apply insertionSort_ranked|].
  by apply (proj2_sig (long_sort w less l)).
Qed.

(** X22. When [Less] is a strict weak order (it never holds both ways, and
    not holding is transitive), the list the default mode hands to the
    renderer is ranked: no record is [Less] than a record before it. *)
Theorem default_mode_report_ranked (w : World) (f : Flags)
    (Less : PcStatus → PcStatus → bool) (rnd : nat) (files : list string)
    (st1 : St) :
  (∀ a b, Less a b = true → Less b a = false) →
  (∀ a b c, Less a b = false → Less b c = false → Less a c = false) →
  topFlag f = 0 →
  main_files w f (start rnd) = Ret files st1 →
  files ≠ [] →
  ∃ out,
    run w f Less rnd =
      Ret () (mkSt (ns st1) (seed st1)
                (trace st1 ++ census_log w (ns st1) files ++
                 [EFormat (rendering f) out]))
    ∧ ranked Less out.
Proof.
  intros Hasym Hneg Htop Hfiles Hne. eexists. split.
  - by apply default_mode_run.
  - by apply sort_Sort_ranked.
Qed.

Lemma default_mode_report_ranked_witness :
  ∃ out,
    run Demo.fleet (Demo.flags 0 0 false ["/data/b"; "/logs/a"; "/data/a"])
      by_cached 0%nat =
      Ret () (mkSt 0%nat 0%nat ([] ++ [] ++ [EFormat FormatText out]))
    ∧ ranked by_cached out.
Proof.
  apply (default_mode_report_ranked Demo.fleet
           (Demo.flags 0 0 false ["/data/b"; "/logs/a"; "/data/a"])
           by_cached 0%nat ["/data/b"; "/logs/a"; "/data/a"] (start 0%nat)).
  - unfold by_cached. intros a b. rewrite Z.ltb_lt, Z.ltb_ge. lia.
  - unfold by_cached. intros a b c. rewrite !Z.ltb_ge. lia.
  - reflexivity.
  - reflexivity.
  - discriminate.
Defined.

(** ** A negative [-top] *)

Lemma for_range_stop {A S} (Q : Halt → Prop) (xs : list A)
    (body : A → S → M S) :
  (∀ x acc st h st', body x acc st = Stop h st' → Q h) →
  ∀ acc st h st', for_range xs body acc st = Stop h st' → Q h.
Proof.
  intros Hbody. induction xs as [|x xs IH]; intros acc st h st'; [done|].
  rewrite for_range_cons. destruct (body x acc st) as [a1 st1|h1 st1] eqn:Hb.
  - apply IH.
  - intros [= <- <-]. by eapply Hbody.
Qed.

(** [getPidLds] ends the run only by [log.Fatalf]. *)
Lemma getPidLds_stop w pid st h st' :
  getPidLds w pid st = Stop h st' → h = Exit 1.
Proof.
  destruct (decide (pid = Getpid w)) as [->|Hpid].
  { by rewrite getPidLds_self. }
  rewrite getPidLds_unfold by done.
  destruct (ReadDir w (ns st) (fd_dir pid)) as [entries|err].
  - by destruct (getPidLds_loop_spec w pid entries ∅ st) as (maps & -> & _).
  - destruct (negb (Contains err no_such_file)); [|done].
    unfold Fatalf, Printf, emit, halt, mbind, M_bind. by intros [= <- <-].
Qed.

Lemma top_body_stop w process files st h st' :
  top_body w process files st = Stop h st' → h = Exit 1.
Proof.
  unfold top_body, pcstat_SwitchMountNs, emit, modify, mbind, M_bind.
  cbn -[getPidLds].
  destruct (getPidLds w _ _) as [maps st1|h1 st1] eqn:Hg; [done|].
  intros [= <- <-]. by eapply getPidLds_stop.
Qed.

(** With a negative [-top] value no run reports: it ends with status 1, or
    in the panic of [stats[:top]]. *)
Lemma negative_top_never_reports (w : World) (f : Flags)
    (Less : PcStatus → PcStatus → bool) (rnd : nat) :
  topFlag f < 0 →
  ∃ st, run w f Less rnd = Stop (Exit 1) st
        ∨ run w f Less rnd = Stop (Panic "slice bounds out of range") st.
Proof.
  intros Hneg. unfold run. rewrite main_top by lia.
  unfold mbind, M_bind. rewrite top_unfold. cbv zeta.
  destruct (Processes w (ns (start rnd))) as [p|err].
  - destruct (length p <=? 0)%nat.
    + eexists. left. reflexivity.
    + destruct (for_range (scanned p) (top_body w) [] _)
        as [files st2|h st2] eqn:Hloop.
      * rewrite getStatsFromFiles_exact, ranked_slice.
        rewrite reslice_out_of_range by (left; lia).
        eexists. right. reflexivity.
      * apply (for_range_stop (λ h, h = Exit 1)) in Hloop as ->.
        -- eexists. by left.
        -- intros. by eapply top_body_stop.
  - eexists. left. reflexivity.
Qed.
